(** * gsroptim.lasso: the Lasso path driver [lasso_path]

    A shallow embedding of [src/gsroptim/lasso.py].  Floating-point numbers
    are read as exact rationals ([Q]); numpy arrays are lists; the arrays
    that the compiled kernel [cd_lasso] mutates in place are threaded
    explicitly through every call.  The kernel itself (module
    [cd_lasso_fast]) is not part of the Python sources: it is a variable of
    the section, so every theorem holds for every kernel that returns.
    A mean over an empty array is [0] here, where numpy yields [nan]. *)

From Stdlib Require Import QArith Qabs Qminmax ZArith List Bool Lia.
From stdpp Require Import base list.
Import ListNotations.

Local Open Scope Q_scope.

(** ** Numbers and one-dimensional arrays *)

Abbreviation vec := (list Q).

(** [a < b] on floats, as a boolean. *)
Definition Qltb (a b : Q) : bool := negb (Qle_bool b a).

Definition np_zeros (n : nat) : vec := repeat 0 n.
Definition np_ones (n : nat) : vec := repeat 1 n.
Definition np_sum (v : vec) : Q := fold_left Qplus v 0.
Definition np_mean (v : vec) : Q := np_sum v / inject_Z (Z.of_nat (length v)).
Definition vdot (a b : vec) : Q := np_sum (zip_with Qmult a b).

(** [norm(y) ** 2]: the square of the Euclidean norm, i.e. the sum of the
    squares in exact arithmetic. *)
Definition norm_sq (y : vec) : Q := np_sum (map (fun v => v * v) y).

(** ** Exceptions raised by numpy during the set-up *)

Inductive exn := ValueError.

Inductive result (A : Type) :=
| Ok (a : A)
| Raise (e : exn).
Arguments Ok {A} a.
Arguments Raise {A} e.

Definition bind {A B} (r : result A) (k : A -> result B) : result B :=
  match r with
  | Ok a => k a
  | Raise e => Raise e
  end.

Notation "x <- r ;; k" := (bind r (fun x => k))
  (at level 100, r at next level, right associativity).

(** [a - b] on one-dimensional arrays, with numpy's broadcasting: equal
    lengths, or one side of length one; anything else raises. *)
Definition np_sub (a b : vec) : result vec :=
  if Nat.eqb (length a) (length b) then Ok (zip_with Qminus a b)
  else if Nat.eqb (length b) 1 then Ok (map (fun x => x - nth 0 b 0) a)
  else if Nat.eqb (length a) 1 then Ok (map (fun x => nth 0 a 0 - x) b)
  else Raise ValueError.

(** ** The feature matrix: a dense ndarray or a scipy CSC matrix *)

Inductive matrix :=
| Dense (n_samples n_features : nat) (rows : list vec)
| Csc (n_samples n_features : nat)
      (data : vec) (indices : list nat) (indptr : list nat).

Definition shape (X : matrix) : nat * nat :=
  match X with
  | Dense n p _ => (n, p)
  | Csc n p _ _ _ => (n, p)
  end.

Definition issparse (X : matrix) : bool :=
  match X with
  | Dense _ _ _ => false
  | Csc _ _ _ _ _ => true
  end.

Definition column (rows : list vec) (j : nat) : vec :=
  map (fun row => nth j row 0) rows.

(** The stored entries [(row, value)] of column [j] of a CSC matrix. *)
Definition col_entries (data : vec) (indices indptr : list nat) (j : nat)
  : list (nat * Q) :=
  let lo := nth j indptr 0%nat in
  let hi := nth (S j) indptr 0%nat in
  firstn (hi - lo) (skipn lo (combine indices data)).

(** [X.mean(axis=0)], flattened. *)
Definition col_means (X : matrix) : vec :=
  match X with
  | Dense n p rows =>
      map (fun j => np_sum (column rows j) / inject_Z (Z.of_nat n)) (seq 0 p)
  | Csc n p data indices indptr =>
      map (fun j => np_sum (map snd (col_entries data indices indptr j))
                    / inject_Z (Z.of_nat n)) (seq 0 p)
  end.

(** [X -= X_mean] on a dense matrix: every row loses the mean vector. *)
Definition sub_rows (X : matrix) (m : vec) : matrix :=
  match X with
  | Dense n p rows => Dense n p (map (fun row => zip_with Qminus row m) rows)
  | Csc n p d i ip => Csc n p d i ip
  end.

(** [X.dot(b)]. *)
Definition mat_dot (X : matrix) (b : vec) : result vec :=
  match X with
  | Dense n p rows =>
      if Nat.eqb (length b) p then Ok (map (fun row => vdot row b) rows)
      else Raise ValueError
  | Csc n p data indices indptr =>
      if Nat.eqb (length b) p then
        Ok (fold_left
              (fun out j =>
                 fold_left
                   (fun out e => <[fst e := nth (fst e) out 0
                                            + snd e * nth j b 0]> out)
                   (col_entries data indices indptr j) out)
              (seq 0 p) (np_zeros n))
      else Raise ValueError
  end.

(** [X.T.dot(r)]. *)
Definition mat_tdot (X : matrix) (r : vec) : result vec :=
  match X with
  | Dense n p rows =>
      if Nat.eqb (length r) n then
        Ok (map (fun j => vdot (column rows j) r) (seq 0 p))
      else Raise ValueError
  | Csc n p data indices indptr =>
      if Nat.eqb (length r) n then
        Ok (map (fun j =>
                   np_sum (map (fun e => snd e * nth (fst e) r 0)
                               (col_entries data indices indptr j)))
                (seq 0 p))
      else Raise ValueError
  end.

(** [(X_ ** 2).sum(axis=0)] on a dense matrix. *)
Definition col_sq_sums (X : matrix) : vec :=
  match X with
  | Dense n p rows => map (fun j => norm_sq (column rows j)) (seq 0 p)
  | Csc _ p _ _ _ => np_zeros p
  end.

(** ** The [lambdas] argument *)

(** What a caller may pass as [lambdas]: a one-dimensional ndarray (the
    documented type), a bare Python number, or a Python list of numbers. *)
Inductive lambdas_arg :=
| NdArray (a : vec)
| PyScalar (q : Q)
| PyList (l : vec).

(** The ndarray the loop iterates over: one-dimensional, or the array of
    shape [(1, k)] that [np.array([l])] builds from a list [l] of [k]
    numbers. *)
Inductive ndarray :=
| Arr1 (a : vec)
| Row2 (row : vec).

(** An element [lambdas[t]]: a number, or a whole row. *)
Inductive pyval :=
| VNum (q : Q)
| VArr (a : vec).

Definition is_ndarray (l : lambdas_arg) : bool :=
  match l with
  | NdArray _ => true
  | _ => false
  end.

(** [np.array([lambdas])]. *)
Definition np_array_singleton (l : lambdas_arg) : ndarray :=
  match l with
  | NdArray a => Row2 a
  | PyScalar q => Arr1 [q]
  | PyList l => Row2 l
  end.

(** [len(lambdas)]: the size of the first axis. *)
Definition len (a : ndarray) : nat :=
  match a with
  | Arr1 a => length a
  | Row2 _ => 1%nat
  end.

Definition getitem (a : ndarray) (t : nat) : pyval :=
  match a with
  | Arr1 a => VNum (nth t a 0)
  | Row2 row => VArr row
  end.

(** The number at [lambdas[t]] in the strong rule.  The rule runs only at
    [t <> 0], which a [Row2] grid (of length one) never reaches. *)
Definition lam_num (a : ndarray) (t : nat) : Q :=
  match a with
  | Arr1 a => nth t a 0
  | Row2 _ => 0
  end.

Definition NO_SCREENING : Z := 0.
Definition GAPSAFE_SEQ : Z := 1.
Definition GAPSAFE : Z := 2.

(** ** The kernel interface *)

(** The four arrays a kernel call mutates in place: [beta_init], [XTR],
    [residual] and [disabled_features]. *)
Record arrays := {
  beta : vec;
  XTR : vec;
  residual : vec;
  disabled_features : list Z
}.

(** The remaining (read-only) arguments of a [cd_lasso] call, in the order
    of the call. *)
Record solver_args := {
  a_X_ : option (list vec);
  a_X_data : option vec;
  a_X_indices : option (list nat);
  a_X_indptr : option (list nat);
  a_y : vec;
  a_X_mean : option vec;
  a_norm_Xcent : vec;
  a_nrm2_y : Q;
  a_lambda : pyval;
  a_sum_residual : Q;
  a_tol : Q;
  a_max_iter : Z;
  a_f : Z;
  a_screening : Z;
  a_wstr_plus : Z;
  a_sparse : bool;
  a_center : bool
}.

(** The tuple a [cd_lasso] call returns. *)
Record solver_out := {
  gap : Q;
  sum_residual_out : Q;
  n_iter : Z;
  n_active : Z
}.

(** One kernel invocation, as the driver made it: the path index, the
    arguments, the arrays before and after, and the returned tuple.  The
    list of invocations is bookkeeping of the model, used to state what the
    driver hands to the kernel and when. *)
Record call := {
  c_t : nat;
  c_args : solver_args;
  c_before : arrays;
  c_res : solver_out;
  c_after : arrays
}.

(** The two [print] statements of the non-convergence warning. *)
Inductive line :=
| DidNotConverge (t : nat)
| GapEps (g eps : Q).

(** The values fixed before the loop starts. *)
Record env := {
  e_X_ : option (list vec);
  e_X_data : option vec;
  e_X_indices : option (list nat);
  e_X_indptr : option (list nat);
  e_y : vec;
  e_X_mean : option vec;
  e_y_mean : Q;
  e_norm_Xcent : vec;
  e_nrm2_y : Q;
  e_tol : Q;
  e_lambdas : ndarray;
  e_n_features : nat;
  e_fit_intercept : bool;
  e_eps : Q;
  e_max_iter : Z;
  e_f : Z;
  e_screening : Z;
  e_gap_active_warm_start : bool;
  e_strong_active_warm_start : bool;
  e_sparse : bool;
  e_center : bool
}.

(** The variables the loop updates, the output arrays, the printed lines
    and the kernel invocations so far.  [betas] is kept as the list of its
    columns. *)
Record path_state := {
  arrs : arrays;
  sum_residual : Q;
  run_active_warm_start : bool;
  intercepts : vec;
  betas : list vec;
  gaps : vec;
  n_iters : list Z;
  n_active_features : list Z;
  stdout : list line;
  calls : list call
}.

(** What a call of [lasso_path] leaves behind: the caller's [X] and [y]
    objects after the call, and the final loop state, whose output arrays
    are the returned tuple. *)
Record run := {
  X_after : matrix;
  y_after : vec;
  final : path_state
}.

Definition mk_args (E : env) (lam : pyval) (sum_res : Q) (wstr_plus : Z)
  : solver_args :=
  {| a_X_ := e_X_ E; a_X_data := e_X_data E; a_X_indices := e_X_indices E;
     a_X_indptr := e_X_indptr E; a_y := e_y E; a_X_mean := e_X_mean E;
     a_norm_Xcent := e_norm_Xcent E; a_nrm2_y := e_nrm2_y E;
     a_lambda := lam; a_sum_residual := sum_res; a_tol := e_tol E;
     a_max_iter := e_max_iter E; a_f := e_f E; a_screening := e_screening E;
     a_wstr_plus := wstr_plus; a_sparse := e_sparse E;
     a_center := e_center E |}.

Definition set_disabled (A : arrays) (d : list Z) : arrays :=
  {| beta := beta A; XTR := XTR A; residual := residual A;
     disabled_features := d |}.

(** [(np.abs(XTR) < 2. * lam_t - lam_prev).astype(np.intc)]. *)
Definition strong_rule (xtr : vec) (lam_t lam_prev : Q) : list Z :=
  map (fun x => if Qltb (Qabs x) (2 * lam_t - lam_prev) then 1%Z else 0%Z) xtr.

(** [X_mean.dot(beta_init)].  The source evaluates it only where [X_mean]
    has been computed, so the [None] branch is never reached. *)
Definition mean_dot (m : option vec) (b : vec) : Q :=
  match m with
  | Some m => vdot m b
  | None => 0
  end.

(** The grid the loop runs over (lines 78-79): an ndarray is taken as it
    is, anything else is wrapped by [np.array([lambdas])]. *)
Definition grid_of (lambdas : lambdas_arg) : ndarray :=
  match lambdas with
  | NdArray a => Arr1 a
  | _ => np_array_singleton lambdas
  end.

Section Driver.

Variable cd_lasso : solver_args -> arrays -> solver_out * arrays.

(** [matrix_column_norm] of the compiled module: fills [norm_Xcent] for a
    CSC matrix. *)
Variable matrix_column_norm :
  nat -> nat -> vec -> list nat -> list nat -> option vec -> bool -> vec.

(** One call [cd_lasso(..., wstr_plus=w, ...)] at path index [t] on the
    arrays [A]. *)
Definition invoke (E : env) (t : nat) (sum_res : Q) (w : Z) (A : arrays)
  : call :=
  let args := mk_args E (getitem (e_lambdas E) t) sum_res w in
  let r := cd_lasso args A in
  {| c_t := t; c_args := args; c_before := A;
     c_res := fst r; c_after := snd r |}.

(** Line 144: [active_warm_start and t != 0]. *)
Definition warm_enabled (E : env) (t : nat) : bool :=
  (e_strong_active_warm_start E || e_gap_active_warm_start E)
  && negb (Nat.eqb t 0).

(** Lines 146-148: the arrays once the strong rule has (or has not)
    rebound [disabled_features]. *)
Definition seeded (E : env) (t : nat) (s : path_state) : arrays :=
  if e_strong_active_warm_start E
  then set_disabled (arrs s)
         (strong_rule (XTR (arrs s)) (lam_num (e_lambdas E) t)
                      (lam_num (e_lambdas E) (t - 1)))
  else arrs s.

(** Lines 150-151: the value of [run_active_warm_start] tested at line
    153. *)
Definition run_flag (E : env) (t : nat) (s : path_state) : bool :=
  if e_gap_active_warm_start E
  then Z.ltb (nth t (n_active_features s) 0%Z) (Z.of_nat (e_n_features E))
  else run_active_warm_start s.

(** Lines 144-160: the warm-start block of iteration [t]. *)
Definition warm_start (E : env) (t : nat) (s : path_state) : path_state :=
  if warm_enabled E t then
    let A := seeded E t s in
    let run_ws := run_flag E t s in
    if run_ws then
      let c := invoke E t (sum_residual s) 1 A in
      {| arrs := c_after c; sum_residual := sum_residual_out (c_res c);
         run_active_warm_start := run_ws;
         intercepts := intercepts s; betas := betas s; gaps := gaps s;
         n_iters := n_iters s; n_active_features := n_active_features s;
         stdout := stdout s; calls := calls s ++ [c] |}
    else
      {| arrs := A; sum_residual := sum_residual s;
         run_active_warm_start := run_ws;
         intercepts := intercepts s; betas := betas s; gaps := gaps s;
         n_iters := n_iters s; n_active_features := n_active_features s;
         stdout := stdout s; calls := calls s |}
  else s.

(** Lines 162-178: the authoritative solve of iteration [t] and the
    bookkeeping after it. *)
Definition solve (E : env) (t : nat) (s : path_state) : path_state :=
  let c := invoke E t (sum_residual s) 0 (arrs s) in
  let n_act := <[t := n_active (c_res c)]> (n_active_features s) in
  {| arrs := c_after c;
     sum_residual := sum_residual_out (c_res c);
     run_active_warm_start := run_active_warm_start s;
     intercepts :=
       if e_fit_intercept E
       then <[t := e_y_mean E - mean_dot (e_X_mean E) (beta (c_after c))]>
              (intercepts s)
       else intercepts s;
     betas := <[t := beta (c_after c)]> (betas s);
     gaps := <[t := gap (c_res c)]> (gaps s);
     n_iters := <[t := n_iter (c_res c)]> (n_iters s);
     n_active_features :=
       if Nat.eqb t 0 && negb (Z.eqb (e_screening E) NO_SCREENING)
       then <[0%nat := 0%Z]> n_act
       else n_act;
     stdout :=
       if Qltb (e_tol E) (Qabs (gap (c_res c)))
       then stdout s ++ [DidNotConverge t; GapEps (gap (c_res c)) (e_eps E)]
       else stdout s;
     calls := calls s ++ [c] |}.

Definition path_step (E : env) (s : path_state) (t : nat) : path_state :=
  solve E t (warm_start E t s).

(** [for t in range(n)]. *)
Definition path_loop (E : env) (n : nat) (s : path_state) : path_state :=
  fold_left (path_step E) (seq 0 n) s.

(** The authoritative invocation of iteration [t] from the state [s]. *)
Definition auth_call (E : env) (t : nat) (s : path_state) : call :=
  invoke E t (sum_residual (warm_start E t s)) 0 (arrs (warm_start E t s)).

(** The kernel invocations iteration [t] makes from the state [s]: the
    warm-start probe, when it runs, and the authoritative solve. *)
Definition step_calls (E : env) (t : nat) (s : path_state) : list call :=
  (if warm_enabled E t && run_flag E t s
   then [invoke E t (sum_residual s) 1 (seeded E t s)]
   else [])
  ++ [auth_call E t s].

(** The lines iteration [t] prints from the state [s]. *)
Definition step_lines (E : env) (t : nat) (s : path_state) : list line :=
  if Qltb (e_tol E) (Qabs (gap (c_res (auth_call E t s))))
  then [DidNotConverge t; GapEps (gap (c_res (auth_call E t s))) (e_eps E)]
  else [].

(** The whole of [lasso_path]. *)
Definition lasso_path (X : matrix) (y : vec) (lambdas : lambdas_arg)
    (beta_init : option vec) (fit_intercept : bool) (eps : Q)
    (max_iter : Z) (screening : Z) (f : Z)
    (gap_active_warm_start strong_active_warm_start : bool)
  : result run :=
  let lambdas := grid_of lambdas in
  let n_lambdas := len lambdas in
  let n_samples := fst (shape X) in
  let n_features := snd (shape X) in
  let betas0 := repeat (np_zeros n_features) n_lambdas in
  let beta_init :=
    match beta_init with
    | None => np_zeros n_features
    | Some b => b
    end in
  let disabled0 := repeat 0%Z n_features in
  let sparse := issparse X in
  let center := fit_intercept in
  let X_mean := if center then Some (col_means X) else None in
  let y_mean := np_mean y in
  let y := if center then map (fun v => v - y_mean) y else y in
  let X := if center && negb sparse then sub_rows X (col_means X) else X in
  Xb <- mat_dot X beta_init ;;
  r0 <- np_sub y Xb ;;
  let residual0 :=
    if sparse && center
    then map (fun v => v + mean_dot X_mean beta_init) r0
    else r0 in
  let sum_residual0 := if sparse && center then np_sum residual0 else 0 in
  let norm_Xcent :=
    match X with
    | Dense _ _ _ => col_sq_sums X
    | Csc _ _ d i ip => matrix_column_norm n_samples n_features d i ip
                                           X_mean center
    end in
  let nrm2_y := norm_sq y in
  XTR0 <- mat_tdot X residual0 ;;
  let tol := eps * nrm2_y in
  let E :=
    {| e_X_ := match X with Dense _ _ rows => Some rows | _ => None end;
       e_X_data := match X with Csc _ _ d _ _ => Some d | _ => None end;
       e_X_indices := match X with Csc _ _ _ i _ => Some i | _ => None end;
       e_X_indptr := match X with Csc _ _ _ _ ip => Some ip | _ => None end;
       e_y := y; e_X_mean := X_mean; e_y_mean := y_mean;
       e_norm_Xcent := norm_Xcent; e_nrm2_y := nrm2_y; e_tol := tol;
       e_lambdas := lambdas; e_n_features := n_features;
       e_fit_intercept := fit_intercept; e_eps := eps;
       e_max_iter := max_iter; e_f := f; e_screening := screening;
       e_gap_active_warm_start := gap_active_warm_start;
       e_strong_active_warm_start := strong_active_warm_start;
       e_sparse := sparse; e_center := center |} in
  let s0 :=
    {| arrs := {| beta := beta_init; XTR := XTR0; residual := residual0;
                  disabled_features := disabled0 |};
       sum_residual := sum_residual0;
       run_active_warm_start := true;
       intercepts := np_zeros n_lambdas;
       betas := betas0;
       gaps := np_ones n_lambdas;
       n_iters := repeat 0%Z n_lambdas;
       n_active_features := repeat 0%Z n_lambdas;
       stdout := [];
       calls := [] |} in
  Ok {| X_after := X; y_after := y; final := path_loop E n_lambdas s0 |}.

End Driver.

(** ** The shape of a successful call *)

Section Shape.

Variable cd_lasso : solver_args -> arrays -> solver_out * arrays.

(** Iteration [t] writes only position [t] of an output array, and never
    resizes it. *)
Definition writes_own_slot {A} (E : env) (f : path_state -> list A) : Prop :=
  forall s t,
    length (f (path_step cd_lasso E s t)) = length (f s)
    /\ forall i, i <> t -> f (path_step cd_lasso E s t) !! i = f s !! i.

(** A successful call is the loop run from the initial state [s0] under
    the environment [E] that the lines before the loop have built. *)
Record set_up (X : matrix) (y : vec) (lambdas : lambdas_arg)
    (fit_intercept : bool) (eps : Q) (screening : Z)
    (gap_ws strong_ws : bool) (R : run) (E : env) (s0 : path_state)
  : Prop := {
  su_final : final R = path_loop cd_lasso E (len (grid_of lambdas)) s0;
  su_lambdas : e_lambdas E = grid_of lambdas;
  su_tol : e_tol E = eps * norm_sq (y_after R);
  su_eps : e_eps E = eps;
  su_screening : e_screening E = screening;
  su_gap : e_gap_active_warm_start E = gap_ws;
  su_strong : e_strong_active_warm_start E = strong_ws;
  su_fit : e_fit_intercept E = fit_intercept;
  su_n_features : e_n_features E = snd (shape X);
  su_y_mean : e_y_mean E = np_mean y;
  su_X_mean : e_X_mean E
              = if fit_intercept then Some (col_means X) else None;
  su_y : e_y E = y_after R;
  su_y_after : y_after R
               = if fit_intercept then map (fun v => v - np_mean y) y else y;
  su_X_after : X_after R
               = if fit_intercept && negb (issparse X)
                 then sub_rows X (col_means X) else X;
  su_calls : calls s0 = [];
  su_stdout : stdout s0 = [];
  su_intercepts : intercepts s0 = np_zeros (len (grid_of lambdas));
  su_betas : betas s0
             = repeat (np_zeros (snd (shape X))) (len (grid_of lambdas));
  su_gaps : gaps s0 = np_ones (len (grid_of lambdas));
  su_n_iters : n_iters s0 = repeat 0%Z (len (grid_of lambdas));
  su_n_active : n_active_features s0 = repeat 0%Z (len (grid_of lambdas));
  su_disabled : disabled_features (arrs s0) = repeat 0%Z (snd (shape X));
  su_run_flag : run_active_warm_start s0 = true
}.

End Shape.

(** ** Reading a run *)

(** The kernel invocations made at path index [t], in order. *)
Definition calls_at (t : nat) (log : list call) : list call :=
  List.filter (fun c => Nat.eqb (c_t c) t) log.

(** A warm-start probe is a call with [wstr_plus=1]. *)
Definition is_probe (c : call) : bool := Z.eqb (a_wstr_plus (c_args c)) 1.

(** The disabled-features mask a call receives. *)
Definition mask_in (c : call) : list Z := disabled_features (c_before c).

Definition is_Ok {A} (r : result A) : bool :=
  match r with
  | Ok _ => true
  | Raise _ => false
  end.

(** The stored shape of [X] agrees with its contents. *)
Definition well_formed (X : matrix) : bool :=
  match X with
  | Dense n p rows =>
      Nat.eqb (length rows) n && forallb (fun r => Nat.eqb (length r) p) rows
  | Csc n p data indices indptr =>
      Nat.eqb (length indptr) (S p) && Nat.eqb (length indices) (length data)
      && forallb (fun i => Nat.ltb i n) indices
  end.

(** No warm-start probe ran at index [t]. *)
Definition probe_skipped (t : nat) (log : list call) : Prop :=
  forall c, In c (calls_at t log) -> is_probe c = false.

(** The gap-based warm start as the specification words it: at every index
    [t > 0] the probe is skipped exactly when the solve at [t - 1] ended
    with zero active features. *)
Definition skip_iff_previous_zero (n_lambdas : nat) (R : run) : Prop :=
  forall t, (0 < t)%nat -> (t < n_lambdas)%nat ->
    probe_skipped t (calls (final R))
    <-> n_active_features (final R) !! (t - 1)%nat = Some 0%Z.

(** The mask life cycle as the specification words it: at every index the
    first invocation receives a mask that was reset (all zeros) or
    recomputed by the strong rule from the previous correlations. *)
Definition mask_fresh_at_each_lambda
    (n_features : nat) (grid : ndarray) (R : run) : Prop :=
  forall t c rest,
    (t < len grid)%nat ->
    calls_at t (calls (final R)) = c :: rest ->
    mask_in c = repeat 0%Z n_features
    \/ exists prev,
         last (calls_at (t - 1) (calls (final R))) = Some prev
         /\ mask_in c = strong_rule (XTR (c_after prev)) (lam_num grid t)
                          (lam_num grid (t - 1)).

(** Convergence as the specification words it: the solve at [t] counts as
    converged (no warning is printed for it) exactly when its gap is at
    most [eps * ||y||^2]. *)
Definition converged_iff_gap_le_tol (eps : Q) (n_lambdas : nat) (R : run)
  : Prop :=
  forall t g,
    (t < n_lambdas)%nat -> gaps (final R) !! t = Some g ->
    g <= eps * norm_sq (y_after R)
    <-> ~ In (DidNotConverge t) (stdout (final R)).

(** The intercept clause as the specification words it for a fit without
    centring: the intercept at [t] is [mean(y) - mean(X) . beta_t]. *)
Definition intercept_is_mean_formula
    (X : matrix) (y : vec) (n_lambdas : nat) (R : run) : Prop :=
  forall t b,
    (t < n_lambdas)%nat -> betas (final R) !! t = Some b ->
    exists v, intercepts (final R) !! t = Some v
              /\ v == np_mean y - vdot (col_means X) b.

(** The rows of a dense matrix are as many as its shape says. *)
Definition rows_ok (X : matrix) : Prop :=
  match X with
  | Dense n _ rows => length rows = n
  | Csc _ _ _ _ _ => True
  end.

(** ** Stand-in kernels for concrete runs *)

(** A kernel that reports gap [g] and [na] active features after one epoch,
    leaves [beta], [XTR] and [residual] alone and, when [mark] is set,
    disables every feature. *)
Definition stub_kernel (g : Q) (na : Z) (mark : bool)
    (args : solver_args) (A : arrays) : solver_out * arrays :=
  ({| gap := g; sum_residual_out := a_sum_residual args;
      n_iter := 1; n_active := na |},
   if mark
   then set_disabled A (map (fun _ => 1%Z) (disabled_features A))
   else A).

Definition stub_column_norm
    (n p : nat) (d : vec) (i ip : list nat) (m : option vec) (c : bool)
  : vec := np_zeros p.

(** One sample, one feature. *)
Definition X11 : matrix := Dense 1 1 [[1]].
(** Two samples, two features. *)
Definition X22 : matrix := Dense 2 2 [[1; 0]; [0; 1]].
(** Two samples, one feature. *)
Definition X21 : matrix := Dense 2 1 [[1]; [1]].

(** Gap-based warm start only, two lambdas, a kernel that reports zero
    active features. *)
Definition run_gap_probe : result run :=
  lasso_path (stub_kernel 0 0 false) stub_column_norm
    X22 [1; 1] (NdArray [1; 1 # 2]) None false (1 # 10) 10 NO_SCREENING 10
    true false.

(** Strong warm start only, two lambdas; the correlations stay at
    [[1; 1/4]] and the threshold at index 1 is [2 * 3/4 - 1 = 1/2]. *)
Definition run_strong : result run :=
  lasso_path (stub_kernel 0 1 false) stub_column_norm
    X22 [1; 1 # 4] (NdArray [1; 3 # 4]) None false (1 # 10) 10 GAPSAFE 10
    false true.

(** Both warm-start toggles off, two lambdas, a kernel that disables every
    feature. *)
Definition run_carry : result run :=
  lasso_path (stub_kernel 0 1 true) stub_column_norm
    X11 [1] (NdArray [1; 1 # 2]) None false (1 # 10) 10 GAPSAFE 10
    false false.

(** A kernel that reports the gap [-1]; the tolerance is [1/2]. *)
Definition run_negative_gap : result run :=
  lasso_path (stub_kernel (-1) 1 false) stub_column_norm
    X11 [1] (NdArray [1]) None false (1 # 2) 10 GAPSAFE 10 false true.

(** A kernel that reports the gap [1]; the tolerance is [1/2]. *)
Definition run_not_converged : result run :=
  lasso_path (stub_kernel 1 1 false) stub_column_norm
    X11 [1] (NdArray [1; 1 # 2]) None false (1 # 2) 10 GAPSAFE 10 false true.

(** No centring: [y = [1; 3]] has mean 2 and the coefficients stay 0. *)
Definition run_no_intercept : result run :=
  lasso_path (stub_kernel 0 1 false) stub_column_norm
    X21 [1; 3] (NdArray [1]) None false (1 # 2) 10 GAPSAFE 10 false true.

(** Centring, from the coefficient [1]. *)
Definition run_centered : result run :=
  lasso_path (stub_kernel 0 1 false) stub_column_norm
    X21 [1; 3] (NdArray [1]) (Some [1]) true (1 # 2) 10 GAPSAFE 10
    false true.

(** A Python list of two lambdas. *)
Definition run_list : result run :=
  lasso_path (stub_kernel 0 1 false) stub_column_norm
    X11 [1] (PyList [1; 1 # 2]) None false (1 # 2) 10 GAPSAFE 10 false true.

(** A lambda of [-1]. *)
Definition run_negative_lambda : result run :=
  lasso_path (stub_kernel 0 1 false) stub_column_norm
    X11 [1] (NdArray [-1]) None false (1 # 2) 10 GAPSAFE 10 false true.

(** An empty grid. *)
Definition run_empty_grid : result run :=
  lasso_path (stub_kernel 0 1 false) stub_column_norm
    X11 [1] (NdArray []) None false (1 # 2) 10 GAPSAFE 10 false true.

(** Two samples against a target of length one. *)
Definition run_short_y : result run :=
  lasso_path (stub_kernel 0 1 false) stub_column_norm
    X21 [1] (NdArray [1]) None false (1 # 2) 10 GAPSAFE 10 false true.

(** Two samples against a target of length three. *)
Definition run_long_y : result run :=
  lasso_path (stub_kernel 0 1 false) stub_column_norm
    X21 [1; 2; 3] (NdArray [1]) None false (1 # 2) 10 GAPSAFE 10 false true.

(** A negative [eps]. *)
Definition run_negative_eps : result run :=
  lasso_path (stub_kernel 0 1 false) stub_column_norm
    X11 [1] (NdArray [1; 1 # 2]) None false (-1 # 2) 10 GAPSAFE 10
    false true.

(** ** The rest of the call *)

(** Two kernel invocations that follow one another in a run: the second
    is handed the running residual sum the first returned and starts from
    the coefficients, correlations and residual it left; it is either the
    authoritative solve after the probe of the same index, or the first
    invocation of the next index after an authoritative solve; and it
    receives the mask the first left, unless the strong rule has rebound
    it between two indices. *)
Definition follows (strong_ws : bool) (c1 c2 : call) : Prop :=
  a_sum_residual (c_args c2) = sum_residual_out (c_res c1)
  /\ beta (c_before c2) = beta (c_after c1)
  /\ XTR (c_before c2) = XTR (c_after c1)
  /\ residual (c_before c2) = residual (c_after c1)
  /\ ((is_probe c1 = true /\ is_probe c2 = false /\ c_t c2 = c_t c1)
      \/ (is_probe c1 = false /\ c_t c2 = S (c_t c1)))
  /\ (c_t c2 = c_t c1 \/ strong_ws = false ->
      disabled_features (c_before c2) = disabled_features (c_after c1)).

(** Every invocation of a log follows the one before it. *)
Fixpoint threaded (strong_ws : bool) (log : list call) : Prop :=
  match log with
  | c1 :: rest =>
      match rest with
      | c2 :: _ => follows strong_ws c1 c2 /\ threaded strong_ws rest
      | [] => True
      end
  | [] => True
  end.

(** The lines the returned gaps call for: the two warning lines for every
    index whose gap exceeds the tolerance in absolute value, in the order
    of the grid. *)
Definition lines_of_gaps (tol eps : Q) (n_lambdas : nat) (gaps : vec)
  : list line :=
  flat_map
    (fun t =>
       match gaps !! t with
       | Some g =>
           if Qltb tol (Qabs g) then [DidNotConverge t; GapEps g eps] else []
       | None => []
       end)
    (seq 0 n_lambdas).

Section Rest.

Variable cd_lasso : solver_args -> arrays -> solver_out * arrays.
Variable matrix_column_norm :
  nat -> nat -> vec -> list nat -> list nat -> option vec -> bool -> vec.

(** What the lines before the loop fix besides [set_up]: the remaining
    read-only arguments and the arrays the first invocation starts from. *)
Record set_up_rest (X : matrix) (y : vec) (beta_init : option vec)
    (fit_intercept : bool) (max_iter f : Z) (R : run) (E : env)
    (s0 : path_state) : Prop := {
  sr_max_iter : e_max_iter E = max_iter;
  sr_f : e_f E = f;
  sr_sparse : e_sparse E = issparse X;
  sr_center : e_center E = fit_intercept;
  sr_nrm2_y : e_nrm2_y E = norm_sq (y_after R);
  sr_X_ : e_X_ E
          = match X_after R with Dense _ _ rows => Some rows | _ => None end;
  sr_X_data : e_X_data E
              = match X_after R with Csc _ _ d _ _ => Some d | _ => None end;
  sr_norm_Xcent :
    e_norm_Xcent E
    = match X_after R with
      | Dense _ _ _ => col_sq_sums (X_after R)
      | Csc _ _ d i ip =>
          matrix_column_norm (fst (shape X)) (snd (shape X)) d i ip
            (if fit_intercept then Some (col_means X) else None)
            fit_intercept
      end;
  sr_beta : beta (arrs s0)
            = match beta_init with
              | None => np_zeros (snd (shape X))
              | Some b => b
              end;
  sr_residual :
    exists Xb r0,
      mat_dot (X_after R) (beta (arrs s0)) = Ok Xb
      /\ np_sub (y_after R) Xb = Ok r0
      /\ residual (arrs s0)
         = if issparse X && fit_intercept
           then map (fun v => v + vdot (col_means X) (beta (arrs s0))) r0
           else r0;
  sr_XTR : mat_tdot (X_after R) (residual (arrs s0)) = Ok (XTR (arrs s0));
  sr_sum_residual :
    sum_residual s0
    = if issparse X && fit_intercept then np_sum (residual (arrs s0)) else 0
}.

(** [lasso_path] with the defaults of its signature. *)
Definition lasso_path_default (X : matrix) (y : vec) (lambdas : lambdas_arg)
  : result run :=
  lasso_path cd_lasso matrix_column_norm X y lambdas None false (1 # 10000)
    3000 GAPSAFE 10 false true.

End Rest.

(** ** The script [test.py], lines 19-22 *)

(** [np.arange(start, stop, step)] for a positive step. *)
Definition np_arange (start stop step : Z) : list Z :=
  map (fun k => (start + Z.of_nat k * step)%Z)
      (seq 0 (Z.to_nat ((stop - start + step - 1) / step))).

(** [np.linalg.norm(v, ord=np.inf)]: the largest absolute value ([0] here
    for an empty vector, on which numpy raises). *)
Definition linf_norm (v : vec) : Q := fold_left Qmax (map Qabs v) 0.

(** [lambda_max / np.arange(5, 30, 5)]. *)
Definition test_lambdas (lambda_max : Q) : vec :=
  map (fun k => lambda_max / inject_Z k) (np_arange 5 30 5).

Section Script.

Variable cd_lasso : solver_args -> arrays -> solver_out * arrays.
Variable matrix_column_norm :
  nat -> nat -> vec -> list nat -> list nat -> option vec -> bool -> vec.

(** The Lasso part of the script on the data [(X, y)]: the pair
    [(betas, gaps)] it binds. *)
Definition test_lasso (X : matrix) (y : vec) : result (list vec * vec) :=
  xty <- mat_tdot X y ;;
  let lambda_max := linf_norm xty in
  let lambdas := NdArray (test_lambdas lambda_max) in
  R <- lasso_path_default cd_lasso matrix_column_norm X y lambdas ;;
  Ok (betas (final R), gaps (final R)).

End Script.

(** * Facts *)

Lemma Qltb_lt (a b : Q) : Qltb a b = true <-> a < b.
Proof.
  unfold Qltb. rewrite negb_true_iff.
  split; intro H.
  - apply Qnot_le_lt. intro Hle.
    apply Qle_bool_iff in Hle. congruence.
  - destruct (Qle_bool b a) eqn:Hb; [|reflexivity].
    apply Qle_bool_iff in Hb. exfalso. exact (Qlt_not_le _ _ H Hb).
Qed.

Lemma Qltb_ge (a b : Q) : Qltb a b = false <-> b <= a.
Proof.
  unfold Qltb. rewrite negb_false_iff. apply Qle_bool_iff.
Qed.

Section Facts.

Variable cd_lasso : solver_args -> arrays -> solver_out * arrays.
Variable matrix_column_norm :
  nat -> nat -> vec -> list nat -> list nat -> option vec -> bool -> vec.

Local Abbreviation invoke := (invoke cd_lasso).
Local Abbreviation warm_start := (warm_start cd_lasso).
Local Abbreviation solve := (solve cd_lasso).
Local Abbreviation path_step := (path_step cd_lasso).
Local Abbreviation path_loop := (path_loop cd_lasso).
Local Abbreviation step_calls := (step_calls cd_lasso).
Local Abbreviation auth_call := (auth_call cd_lasso).
Local Abbreviation step_lines := (step_lines cd_lasso).
Local Abbreviation lasso_path := (lasso_path cd_lasso matrix_column_norm).
Local Abbreviation writes_own_slot := (writes_own_slot cd_lasso).
Local Abbreviation set_up := (set_up cd_lasso).

(** *** One invocation *)

Lemma invoke_t E t sr w A : c_t (invoke E t sr w A) = t.
Proof. reflexivity. Qed.

Lemma invoke_before E t sr w A : c_before (invoke E t sr w A) = A.
Proof. reflexivity. Qed.

Lemma invoke_args E t sr w A :
  c_args (invoke E t sr w A) = mk_args E (getitem (e_lambdas E) t) sr w.
Proof. reflexivity. Qed.

(** *** The warm-start block leaves the outputs alone *)

Lemma warm_start_outputs E t s :
  intercepts (warm_start E t s) = intercepts s
  /\ betas (warm_start E t s) = betas s
  /\ gaps (warm_start E t s) = gaps s
  /\ n_iters (warm_start E t s) = n_iters s
  /\ n_active_features (warm_start E t s) = n_active_features s
  /\ stdout (warm_start E t s) = stdout s.
Proof.
  unfold warm_start.
  destruct (warm_enabled E t); [|tauto].
  destruct (run_flag E t s); simpl; tauto.
Qed.

Lemma warm_start_calls E t s :
  calls (warm_start E t s)
  = calls s ++ (if warm_enabled E t && run_flag E t s
                then [invoke E t (sum_residual s) 1 (seeded E t s)]
                else []).
Proof.
  unfold warm_start.
  destruct (warm_enabled E t); simpl.
  - destruct (run_flag E t s); simpl; [reflexivity|].
    symmetry; apply app_nil_r.
  - symmetry; apply app_nil_r.
Qed.

(** The arrays the authoritative solve starts from. *)
Lemma warm_start_arrs E t s :
  arrs (warm_start E t s)
  = if warm_enabled E t
    then if run_flag E t s
         then c_after (invoke E t (sum_residual s) 1 (seeded E t s))
         else seeded E t s
    else arrs s.
Proof.
  unfold warm_start.
  destruct (warm_enabled E t); [|reflexivity].
  destruct (run_flag E t s); reflexivity.
Qed.

Lemma path_step_calls E s t :
  calls (path_step E s t) = calls s ++ step_calls E t s.
Proof.
  unfold path_step, step_calls, solve; simpl.
  rewrite warm_start_calls, <- app_assoc. reflexivity.
Qed.

Lemma step_calls_index E t s :
  Forall (fun c => c_t c = t) (step_calls E t s).
Proof.
  unfold step_calls.
  apply Forall_app; split.
  - destruct (warm_enabled E t && run_flag E t s); repeat constructor.
  - repeat constructor.
Qed.

Lemma step_calls_tol E t s :
  Forall (fun c => a_tol (c_args c) = e_tol E) (step_calls E t s).
Proof.
  unfold step_calls.
  apply Forall_app; split.
  - destruct (warm_enabled E t && run_flag E t s); repeat constructor.
  - repeat constructor.
Qed.

(** *** The loop *)

Lemma path_loop_S E n s :
  path_loop E (S n) s = path_step E (path_loop E n s) n.
Proof.
  unfold path_loop. rewrite seq_S, fold_left_app. reflexivity.
Qed.

Lemma path_loop_0 E s : path_loop E 0 s = s.
Proof. reflexivity. Qed.

Lemma path_step_stdout E s t :
  stdout (path_step E s t) = stdout s ++ step_lines E t s.
Proof.
  unfold path_step, step_lines, auth_call, solve; simpl.
  destruct (warm_start_outputs E t s) as (_ & _ & _ & _ & _ & ->).
  destruct (Qltb _ _); [reflexivity|].
  symmetry; apply app_nil_r.
Qed.

Lemma path_loop_calls E n s :
  calls (path_loop E n s)
  = calls s ++ flat_map (fun t => step_calls E t (path_loop E t s)) (seq 0 n).
Proof.
  induction n as [|n IH].
  - simpl. symmetry; apply app_nil_r.
  - rewrite path_loop_S, path_step_calls, IH, seq_S, flat_map_app.
    simpl. rewrite app_nil_r, <- app_assoc. reflexivity.
Qed.

Lemma path_loop_stdout E n s :
  stdout (path_loop E n s)
  = stdout s ++ flat_map (fun t => step_lines E t (path_loop E t s)) (seq 0 n).
Proof.
  induction n as [|n IH].
  - simpl. symmetry; apply app_nil_r.
  - rewrite path_loop_S, path_step_stdout, IH, seq_S, flat_map_app.
    simpl. rewrite app_nil_r, <- app_assoc. reflexivity.
Qed.

Lemma calls_at_same E t s : calls_at t (step_calls E t s) = step_calls E t s.
Proof.
  unfold calls_at.
  pose proof (step_calls_index E t s) as H.
  induction H as [|c l Hc _ IH]; simpl; [reflexivity|].
  rewrite Hc, Nat.eqb_refl, IH. reflexivity.
Qed.

Lemma calls_at_other E t u s : t <> u -> calls_at t (step_calls E u s) = [].
Proof.
  intros Hne. unfold calls_at.
  pose proof (step_calls_index E u s) as H.
  induction H as [|c l Hc _ IH]; simpl; [reflexivity|].
  rewrite Hc. destruct (Nat.eqb_spec u t); [congruence|exact IH].
Qed.

Lemma calls_at_app t l1 l2 :
  calls_at t (l1 ++ l2) = calls_at t l1 ++ calls_at t l2.
Proof. apply List.filter_app. Qed.

Lemma calls_at_earlier E s n m :
  (m <= n)%nat ->
  calls_at n (flat_map (fun t => step_calls E t (path_loop E t s)) (seq 0 m))
  = [].
Proof.
  induction m as [|m IHm]; intros Hm; [reflexivity|].
  rewrite seq_S, flat_map_app, calls_at_app, IHm by lia.
  cbn [flat_map app]. rewrite app_nil_r.
  apply calls_at_other. lia.
Qed.

(** The invocations logged for index [t] are exactly those iteration [t]
    made. *)
Lemma calls_at_loop E n s t :
  calls s = [] -> (t < n)%nat ->
  calls_at t (calls (path_loop E n s)) = step_calls E t (path_loop E t s).
Proof.
  intros Hs Ht. rewrite path_loop_calls, Hs. cbn [app].
  induction n as [|n IH]; [lia|].
  rewrite seq_S, flat_map_app, calls_at_app.
  cbn [flat_map app Nat.add]. rewrite app_nil_r.
  destruct (Nat.eq_dec t n) as [->|Hne].
  - rewrite calls_at_same, calls_at_earlier by lia. reflexivity.
  - rewrite (calls_at_other E t n) by exact Hne.
    rewrite app_nil_r. apply IH. lia.
Qed.

(** *** The output arrays *)

Lemma path_step_gaps E s t :
  gaps (path_step E s t) = <[t := gap (c_res (auth_call E t s))]> (gaps s).
Proof.
  unfold path_step, solve, auth_call; simpl.
  destruct (warm_start_outputs E t s) as (_ & _ & -> & _). reflexivity.
Qed.

Lemma path_step_betas E s t :
  betas (path_step E s t) = <[t := beta (c_after (auth_call E t s))]> (betas s).
Proof.
  unfold path_step, solve, auth_call; simpl.
  destruct (warm_start_outputs E t s) as (_ & -> & _). reflexivity.
Qed.

Lemma path_step_n_iters E s t :
  n_iters (path_step E s t)
  = <[t := n_iter (c_res (auth_call E t s))]> (n_iters s).
Proof.
  unfold path_step, solve, auth_call; simpl.
  destruct (warm_start_outputs E t s) as (_ & _ & _ & -> & _). reflexivity.
Qed.

Lemma path_step_intercepts E s t :
  intercepts (path_step E s t)
  = if e_fit_intercept E
    then <[t := e_y_mean E
                - mean_dot (e_X_mean E) (beta (c_after (auth_call E t s)))]>
           (intercepts s)
    else intercepts s.
Proof.
  unfold path_step, solve, auth_call; simpl.
  destruct (warm_start_outputs E t s) as (-> & _). reflexivity.
Qed.

Lemma path_step_n_active E s t :
  n_active_features (path_step E s t)
  = if Nat.eqb t 0 && negb (Z.eqb (e_screening E) NO_SCREENING)
    then <[0%nat := 0%Z]>
           (<[t := n_active (c_res (auth_call E t s))]> (n_active_features s))
    else <[t := n_active (c_res (auth_call E t s))]> (n_active_features s).
Proof.
  unfold path_step, solve, auth_call; simpl.
  destruct (warm_start_outputs E t s) as (_ & _ & _ & _ & -> & _).
  reflexivity.
Qed.

Lemma path_step_arrs E s t :
  arrs (path_step E s t) = c_after (auth_call E t s).
Proof. reflexivity. Qed.

Lemma gaps_own_slot E : writes_own_slot E gaps.
Proof.
  intros s t. rewrite path_step_gaps. split.
  - apply length_insert.
  - intros i Hi. apply list_lookup_insert_ne. congruence.
Qed.

Lemma betas_own_slot E : writes_own_slot E betas.
Proof.
  intros s t. rewrite path_step_betas. split.
  - apply length_insert.
  - intros i Hi. apply list_lookup_insert_ne. congruence.
Qed.

Lemma n_iters_own_slot E : writes_own_slot E n_iters.
Proof.
  intros s t. rewrite path_step_n_iters. split.
  - apply length_insert.
  - intros i Hi. apply list_lookup_insert_ne. congruence.
Qed.

Lemma intercepts_own_slot E : writes_own_slot E intercepts.
Proof.
  intros s t. rewrite path_step_intercepts.
  destruct (e_fit_intercept E); split; try reflexivity.
  - apply length_insert.
  - intros i Hi. apply list_lookup_insert_ne. congruence.
Qed.

Lemma n_active_own_slot E : writes_own_slot E n_active_features.
Proof.
  intros s t. rewrite path_step_n_active.
  destruct (Nat.eqb_spec t 0) as [->|Hne]; simpl.
  - destruct (negb _); split; rewrite ?length_insert; try reflexivity;
      intros i Hi; rewrite ?list_lookup_insert_ne by congruence; reflexivity.
  - split; [apply length_insert|].
    intros i Hi. apply list_lookup_insert_ne. congruence.
Qed.

Lemma loop_length {A} E (f : path_state -> list A) :
  writes_own_slot E f ->
  forall n s, length (f (path_loop E n s)) = length (f s).
Proof.
  intros Hf n s. induction n as [|n IH]; [reflexivity|].
  rewrite path_loop_S. destruct (Hf (path_loop E n s) n) as [-> _]. exact IH.
Qed.

(** Once iteration [t] is over, slot [t] keeps its value to the end. *)
Lemma loop_slot_final {A} E (f : path_state -> list A) :
  writes_own_slot E f ->
  forall n t s, (t < n)%nat ->
    f (path_loop E n s) !! t = f (path_loop E (S t) s) !! t.
Proof.
  intros Hf n t s Ht. induction n as [|n IH]; [lia|].
  destruct (Nat.eq_dec t n) as [->|Hne]; [reflexivity|].
  rewrite (path_loop_S E n). destruct (Hf (path_loop E n s) n) as [_ ->].
  - apply IH. lia.
  - exact Hne.
Qed.

(** Before iteration [t], slot [t] still holds its initial value. *)
Lemma loop_slot_initial {A} E (f : path_state -> list A) :
  writes_own_slot E f ->
  forall n t s, (n <= t)%nat -> f (path_loop E n s) !! t = f s !! t.
Proof.
  intros Hf n t s Ht. induction n as [|n IH]; [reflexivity|].
  rewrite path_loop_S. destruct (Hf (path_loop E n s) n) as [_ ->].
  - apply IH. lia.
  - lia.
Qed.

Lemma lookup_repeat {A} (x : A) n i :
  (i < n)%nat -> repeat x n !! i = Some x.
Proof.
  revert i. induction n as [|n IH]; intros [|i] Hi; simpl; try lia.
  - reflexivity.
  - apply IH. lia.
Qed.

Lemma gaps_final E n s t :
  (t < n)%nat -> (t < length (gaps s))%nat ->
  gaps (path_loop E n s) !! t
  = Some (gap (c_res (auth_call E t (path_loop E t s)))).
Proof.
  intros Ht Hl.
  rewrite (loop_slot_final E gaps (gaps_own_slot E)) by exact Ht.
  rewrite path_loop_S, path_step_gaps.
  apply list_lookup_insert_eq.
  rewrite (loop_length E gaps (gaps_own_slot E)). exact Hl.
Qed.

Lemma betas_final E n s t :
  (t < n)%nat -> (t < length (betas s))%nat ->
  betas (path_loop E n s) !! t
  = Some (beta (c_after (auth_call E t (path_loop E t s)))).
Proof.
  intros Ht Hl.
  rewrite (loop_slot_final E betas (betas_own_slot E)) by exact Ht.
  rewrite path_loop_S, path_step_betas.
  apply list_lookup_insert_eq.
  rewrite (loop_length E betas (betas_own_slot E)). exact Hl.
Qed.

Lemma intercepts_final E n s t :
  (t < n)%nat -> (t < length (intercepts s))%nat ->
  intercepts (path_loop E n s) !! t
  = if e_fit_intercept E
    then Some (e_y_mean E
               - mean_dot (e_X_mean E)
                   (beta (c_after (auth_call E t (path_loop E t s)))))
    else intercepts s !! t.
Proof.
  intros Ht Hl.
  rewrite (loop_slot_final E intercepts (intercepts_own_slot E)) by exact Ht.
  rewrite path_loop_S, path_step_intercepts.
  destruct (e_fit_intercept E).
  - apply list_lookup_insert_eq.
    rewrite (loop_length E intercepts (intercepts_own_slot E)). exact Hl.
  - apply (loop_slot_initial E intercepts (intercepts_own_slot E)). lia.
Qed.

Lemma n_active_final_0 E n s :
  (0 < n)%nat -> (0 < length (n_active_features s))%nat ->
  n_active_features (path_loop E n s) !! 0%nat
  = Some (if Z.eqb (e_screening E) NO_SCREENING
          then n_active (c_res (auth_call E 0 s))
          else 0%Z).
Proof.
  intros Ht Hl.
  rewrite (loop_slot_final E n_active_features (n_active_own_slot E))
    by exact Ht.
  rewrite path_loop_S, path_step_n_active, path_loop_0. simpl.
  destruct (Z.eqb _ _); simpl.
  - apply list_lookup_insert_eq. exact Hl.
  - apply list_lookup_insert_eq. rewrite length_insert. exact Hl.
Qed.

(** *** From [lasso_path] to the loop *)

Lemma lasso_path_Ok X y lambdas beta_init fi eps mi scr f g st R :
  lasso_path X y lambdas beta_init fi eps mi scr f g st = Ok R ->
  exists E s0, set_up X y lambdas fi eps scr g st R E s0.
Proof.
  unfold lasso_path, bind. intros H.
  destruct (mat_dot _ _) as [Xb|]; [|discriminate].
  destruct (np_sub _ _) as [r0|]; [|discriminate].
  destruct (mat_tdot _ _) as [xtr|]; [|discriminate].
  injection H as <-.
  eexists; eexists; constructor; reflexivity.
Qed.

(** *** What the kernel is handed at each index *)

Lemma step_calls_head E t s :
  exists c rest,
    step_calls E t s = c :: rest
    /\ c_before c = if warm_enabled E t then seeded E t s else arrs s.
Proof.
  unfold step_calls, auth_call.
  rewrite warm_start_arrs.
  destruct (warm_enabled E t); simpl.
  - destruct (run_flag E t s); simpl; eexists; eexists; split; reflexivity.
  - eexists; eexists; split; reflexivity.
Qed.

Lemma step_calls_last E t s :
  last (step_calls E t s) = Some (auth_call E t s).
Proof. unfold step_calls. apply last_snoc. Qed.

Lemma seeded_beta E t s : beta (seeded E t s) = beta (arrs s).
Proof. unfold seeded. destruct (e_strong_active_warm_start E); reflexivity. Qed.

Lemma loop_arrs E t s :
  arrs (path_loop E (S t) s) = c_after (auth_call E t (path_loop E t s)).
Proof. rewrite path_loop_S. apply path_step_arrs. Qed.

Lemma lookup_map {A B} (f : A -> B) (l : list A) i :
  map f l !! i = option_map f (l !! i).
Proof.
  revert i. induction l as [|a l IH]; intros [|i]; simpl; auto.
Qed.

Lemma strong_rule_length xtr a b : length (strong_rule xtr a b) = length xtr.
Proof. unfold strong_rule. apply length_map. Qed.

Lemma strong_rule_lookup xtr a b j x :
  xtr !! j = Some x ->
  (strong_rule xtr a b !! j = Some 1%Z /\ Qabs x < 2 * a - b)
  \/ (strong_rule xtr a b !! j = Some 0%Z /\ ~ Qabs x < 2 * a - b).
Proof.
  intros Hx. unfold strong_rule. rewrite lookup_map, Hx. simpl.
  destruct (Qltb (Qabs x) (2 * a - b)) eqn:Hlt.
  - left. split; [reflexivity|]. apply Qltb_lt. exact Hlt.
  - right. split; [reflexivity|].
    apply Qltb_ge in Hlt. apply Qle_not_lt. exact Hlt.
Qed.

(** The first and the last invocation at an index [t > 0], read off the
    log of a finished loop: the last call at [t - 1] is the authoritative
    solve there, and the first call at [t] starts from the arrays it left,
    with the mask rebound by the strong rule exactly when the strong toggle
    is set. *)
Lemma first_call_after E n s t :
  calls s = [] -> (0 < t)%nat -> (t < n)%nat ->
  exists prev c rest,
    last (calls_at (t - 1) (calls (path_loop E n s))) = Some prev
    /\ is_probe prev = false
    /\ calls_at t (calls (path_loop E n s)) = c :: rest
    /\ beta (c_before c) = beta (c_after prev)
    /\ XTR (c_before c) = XTR (c_after prev)
    /\ mask_in c
       = if e_strong_active_warm_start E
         then strong_rule (XTR (c_after prev)) (lam_num (e_lambdas E) t)
                          (lam_num (e_lambdas E) (t - 1))
         else disabled_features (c_after prev).
Proof.
  intros Hs H0 Ht.
  rewrite !calls_at_loop by (assumption || lia).
  destruct (step_calls_head E t (path_loop E t s)) as (c & rest & Hc & Hb).
  exists (auth_call E (t - 1) (path_loop E (t - 1) s)), c, rest.
  split; [apply step_calls_last|].
  split; [reflexivity|].
  split; [exact Hc|].
  assert (Harr : arrs (path_loop E t s)
                 = c_after (auth_call E (t - 1) (path_loop E (t - 1) s))).
  { replace t with (S (t - 1)) at 1 by lia. apply loop_arrs. }
  unfold mask_in. rewrite Hb, <- Harr.
  destruct (e_strong_active_warm_start E) eqn:Hst.
  - assert (Hwe : warm_enabled E t = true).
    { unfold warm_enabled. rewrite Hst.
      destruct t; [lia|reflexivity]. }
    rewrite Hwe. unfold seeded. rewrite Hst. repeat split.
  - destruct (warm_enabled E t); unfold seeded; rewrite ?Hst; repeat split.
Qed.

(** At index [0] the first (and only) invocation is the authoritative
    solve on the initial arrays. *)
Lemma first_call_0 E n s :
  calls s = [] -> (0 < n)%nat ->
  calls_at 0 (calls (path_loop E n s)) = [auth_call E 0 s]
  /\ c_before (auth_call E 0 s) = arrs s.
Proof.
  intros Hs Hn. rewrite calls_at_loop by assumption.
  rewrite path_loop_0. unfold step_calls, auth_call.
  assert (Hwe : warm_enabled E 0 = false).
  { unfold warm_enabled. simpl. apply andb_false_r. }
  rewrite Hwe. simpl. unfold warm_start. rewrite Hwe. split; reflexivity.
Qed.

(** With the gap toggle set, the probe at an index [t > 0] runs as soon as
    there is a feature: the slot the test reads still holds its initial
    zero. *)
Lemma probe_fires E n s t :
  calls s = [] -> (0 < t)%nat -> (t < n)%nat ->
  e_gap_active_warm_start E = true ->
  n_active_features s !! t = Some 0%Z ->
  (0 < e_n_features E)%nat ->
  exists c rest,
    calls_at t (calls (path_loop E n s)) = c :: rest /\ is_probe c = true.
Proof.
  intros Hs H0 Ht Hg Hinit Hp.
  rewrite calls_at_loop by assumption.
  unfold step_calls.
  assert (Hwe : warm_enabled E t = true).
  { unfold warm_enabled. rewrite Hg, orb_true_r.
    destruct t; [lia|reflexivity]. }
  assert (Hrun : run_flag E t (path_loop E t s) = true).
  { unfold run_flag. rewrite Hg.
    pose proof (loop_slot_initial E n_active_features (n_active_own_slot E)
                  t t s (Nat.le_refl t)) as Hslot.
    rewrite Hinit in Hslot.
    rewrite (nth_lookup_Some _ _ _ _ Hslot).
    apply Z.ltb_lt. lia. }
  rewrite Hwe, Hrun. simpl.
  eexists; eexists; split; reflexivity.
Qed.

(** *** The warm-start heuristics *)

(** C3 (as amended).  With [gap_active_warm_start] set, at every index
    [t > 0] the warm-start probe runs whenever the solve at [t - 1] ended
    with fewer active features than there are features, zero included: it
    is then the first invocation at [t]. *)
Theorem gap_warm_start_probe_runs
    X y lambdas beta_init fi eps mi scr f st R t k :
  lasso_path X y lambdas beta_init fi eps mi scr f true st = Ok R ->
  (0 < t)%nat -> (t < len (grid_of lambdas))%nat ->
  n_active_features (final R) !! (t - 1)%nat = Some k ->
  (0 <= k < Z.of_nat (snd (shape X)))%Z ->
  exists c rest,
    calls_at t (calls (final R)) = c :: rest /\ is_probe c = true.
Proof.
  intros HR H0 Ht _ Hk.
  destruct (lasso_path_Ok _ _ _ _ _ _ _ _ _ _ _ _ HR) as (E & s0 & Hsu).
  rewrite (su_final _ _ _ _ _ _ _ _ _ _ _ _ Hsu).
  apply probe_fires; try assumption.
  - exact (su_calls _ _ _ _ _ _ _ _ _ _ _ _ Hsu).
  - exact (su_gap _ _ _ _ _ _ _ _ _ _ _ _ Hsu).
  - rewrite (su_n_active _ _ _ _ _ _ _ _ _ _ _ _ Hsu).
    apply lookup_repeat. exact Ht.
  - rewrite (su_n_features _ _ _ _ _ _ _ _ _ _ _ _ Hsu). lia.
Qed.

(** C4.  With [strong_active_warm_start] set, at every index [t > 0] the
    first kernel invocation receives a mask of the length of the
    correlation vector left by the authoritative solve at [t - 1], whose
    entry [j] is 1 exactly when [|XTR_j| < 2 * lambda_t - lambda_(t-1)] and
    0 otherwise.  Only an ndarray grid has an index [t > 0]. *)
Theorem strong_warm_start_mask
    X y (a : vec) beta_init fi eps mi scr f g R t :
  lasso_path X y (NdArray a) beta_init fi eps mi scr f g true = Ok R ->
  (0 < t)%nat -> (t < length a)%nat ->
  exists prev c rest,
    last (calls_at (t - 1) (calls (final R))) = Some prev
    /\ is_probe prev = false
    /\ calls_at t (calls (final R)) = c :: rest
    /\ length (mask_in c) = length (XTR (c_after prev))
    /\ forall j x, XTR (c_after prev) !! j = Some x ->
         (mask_in c !! j = Some 1%Z
          /\ Qabs x < 2 * nth t a 0 - nth (t - 1) a 0)
         \/ (mask_in c !! j = Some 0%Z
             /\ ~ Qabs x < 2 * nth t a 0 - nth (t - 1) a 0).
Proof.
  intros HR H0 Ht.
  destruct (lasso_path_Ok _ _ _ _ _ _ _ _ _ _ _ _ HR) as (E & s0 & Hsu).
  destruct (first_call_after E (length a) s0 t
              (su_calls _ _ _ _ _ _ _ _ _ _ _ _ Hsu) H0 Ht)
    as (prev & c & rest & Hlast & Hauth & Hc & _ & _ & Hmask).
  rewrite (su_strong _ _ _ _ _ _ _ _ _ _ _ _ Hsu),
          (su_lambdas _ _ _ _ _ _ _ _ _ _ _ _ Hsu) in Hmask.
  simpl in Hmask.
  rewrite (su_final _ _ _ _ _ _ _ _ _ _ _ _ Hsu). simpl.
  exists prev, c, rest.
  repeat split; try assumption.
  - rewrite Hmask. apply strong_rule_length.
  - intros j x Hx. rewrite Hmask. apply strong_rule_lookup. exact Hx.
Qed.

(** C5 (as amended).  The driver itself resets the mask only once, before
    the loop.  The first invocation at index 0 receives the all-zero mask;
    at an index [t > 0] it receives the strong-rule mask when
    [strong_active_warm_start] is set, and otherwise the very mask the
    authoritative solve at [t - 1] left behind. *)
Theorem mask_at_first_call
    X y lambdas beta_init fi eps mi scr f g st R t :
  lasso_path X y lambdas beta_init fi eps mi scr f g st = Ok R ->
  (t < len (grid_of lambdas))%nat ->
  exists c rest,
    calls_at t (calls (final R)) = c :: rest
    /\ (t = 0%nat -> mask_in c = repeat 0%Z (snd (shape X)))
    /\ ((0 < t)%nat ->
        exists prev,
          last (calls_at (t - 1) (calls (final R))) = Some prev
          /\ mask_in c
             = if st
               then strong_rule (XTR (c_after prev))
                      (lam_num (grid_of lambdas) t)
                      (lam_num (grid_of lambdas) (t - 1))
               else disabled_features (c_after prev)).
Proof.
  intros HR Ht.
  destruct (lasso_path_Ok _ _ _ _ _ _ _ _ _ _ _ _ HR) as (E & s0 & Hsu).
  pose proof (su_calls _ _ _ _ _ _ _ _ _ _ _ _ Hsu) as Hcalls.
  rewrite (su_final _ _ _ _ _ _ _ _ _ _ _ _ Hsu).
  destruct t as [|t].
  - destruct (first_call_0 E _ s0 Hcalls Ht) as [Hc Hb].
    exists (auth_call E 0 s0), []. split; [exact Hc|]. split.
    + intros _. unfold mask_in. rewrite Hb.
      exact (su_disabled _ _ _ _ _ _ _ _ _ _ _ _ Hsu).
    + intros H0. lia.
  - destruct (first_call_after E _ s0 (S t) Hcalls (Nat.lt_0_succ t) Ht)
      as (prev & c & rest & Hlast & _ & Hc & _ & _ & Hmask).
    exists c, rest. split; [exact Hc|]. split; [discriminate|].
    intros _. exists prev. split; [exact Hlast|].
    rewrite Hmask.
    rewrite (su_strong _ _ _ _ _ _ _ _ _ _ _ _ Hsu),
            (su_lambdas _ _ _ _ _ _ _ _ _ _ _ _ Hsu).
    reflexivity.
Qed.

(** *** Tolerance and the non-convergence warning *)

Lemma step_lines_warning E u s t :
  In (DidNotConverge t) (step_lines E u s)
  <-> u = t /\ e_tol E < Qabs (gap (c_res (auth_call E u s))).
Proof.
  unfold step_lines.
  destruct (Qltb _ _) eqn:Hlt; simpl.
  - apply Qltb_lt in Hlt. split.
    + intros [H|[H|[]]]; [|discriminate]. injection H as ->. auto.
    + intros [-> _]. left. reflexivity.
  - apply Qltb_ge in Hlt. split; [tauto|].
    intros [_ H]. exact (Qlt_not_le _ _ H Hlt).
Qed.

Lemma stdout_warning E n s t :
  stdout s = [] ->
  In (DidNotConverge t) (stdout (path_loop E n s))
  <-> (t < n)%nat
      /\ e_tol E < Qabs (gap (c_res (auth_call E t (path_loop E t s)))).
Proof.
  intros Hs. rewrite path_loop_stdout, Hs. cbn [app].
  rewrite in_flat_map. split.
  - intros (u & Hu & Hin). apply step_lines_warning in Hin as [-> Hlt].
    apply in_seq in Hu. split; [lia|exact Hlt].
  - intros [Ht Hlt]. exists t. split.
    + apply in_seq. lia.
    + apply step_lines_warning. auto.
Qed.

Lemma stdout_split E n s t :
  (t < n)%nat ->
  exists pre post,
    stdout (path_loop E n s)
    = pre ++ step_lines E t (path_loop E t s) ++ post.
Proof.
  intros Ht. rewrite path_loop_stdout.
  assert (exists m, n = (t + S m)%nat) as [m ->]
    by (exists (n - S t)%nat; lia).
  rewrite seq_app, flat_map_app. cbn [seq flat_map Nat.add].
  exists (stdout s
          ++ flat_map (fun u => step_lines E u (path_loop E u s)) (seq 0 t)),
         (flat_map (fun u => step_lines E u (path_loop E u s))
                   (seq (S t) m)).
  rewrite <- app_assoc. reflexivity.
Qed.

Lemma loop_calls_tol E n s c :
  calls s = [] -> In c (calls (path_loop E n s)) ->
  a_tol (c_args c) = e_tol E.
Proof.
  intros Hs. rewrite path_loop_calls, Hs. cbn [app].
  rewrite in_flat_map. intros (u & _ & Hin).
  pose proof (step_calls_tol E u (path_loop E u s)) as Hall.
  rewrite List.Forall_forall in Hall. exact (Hall c Hin).
Qed.

Lemma loop_calls_y E n s c :
  calls s = [] -> In c (calls (path_loop E n s)) ->
  a_y (c_args c) = e_y E.
Proof.
  intros Hs. rewrite path_loop_calls, Hs. cbn [app].
  rewrite in_flat_map. intros (u & _ & Hin).
  unfold step_calls in Hin.
  apply in_app_or in Hin as [Hin|[<-|[]]]; [|reflexivity].
  destruct (_ && _); [|destruct Hin].
  destruct Hin as [<-|[]]. reflexivity.
Qed.

(** The authoritative solve at [t], read off the log. *)
Lemma last_call_at E n s t :
  calls s = [] -> (t < n)%nat ->
  last (calls_at t (calls (path_loop E n s)))
  = Some (auth_call E t (path_loop E t s)).
Proof.
  intros Hs Ht. rewrite calls_at_loop by assumption. apply step_calls_last.
Qed.

(** C6 (as amended).  Every kernel invocation, probe or authoritative, is
    handed the tolerance [eps * ||y||^2], with [y] the target as the call
    leaves it (centred when [fit_intercept] is set); and the solve at
    index [t] passes without a warning exactly when the absolute value of
    its gap is at most that tolerance. *)
Theorem gap_tolerance X y lambdas beta_init fi eps mi scr f g st R :
  lasso_path X y lambdas beta_init fi eps mi scr f g st = Ok R ->
  y_after R = (if fi then map (fun v => v - np_mean y) y else y)
  /\ (forall c, In c (calls (final R)) ->
        a_tol (c_args c) = eps * norm_sq (y_after R))
  /\ forall t, (t < len (grid_of lambdas))%nat ->
       exists c gp,
         last (calls_at t (calls (final R))) = Some c
         /\ gap (c_res c) = gp
         /\ gaps (final R) !! t = Some gp
         /\ (Qabs gp <= eps * norm_sq (y_after R)
             <-> ~ In (DidNotConverge t) (stdout (final R))).
Proof.
  intros HR.
  destruct (lasso_path_Ok _ _ _ _ _ _ _ _ _ _ _ _ HR) as (E & s0 & Hsu).
  pose proof (su_calls _ _ _ _ _ _ _ _ _ _ _ _ Hsu) as Hcalls.
  pose proof (su_tol _ _ _ _ _ _ _ _ _ _ _ _ Hsu) as Htol.
  rewrite (su_final _ _ _ _ _ _ _ _ _ _ _ _ Hsu).
  split; [exact (su_y_after _ _ _ _ _ _ _ _ _ _ _ _ Hsu)|].
  split.
  - intros c Hc. rewrite <- Htol. exact (loop_calls_tol E _ s0 c Hcalls Hc).
  - intros t Ht.
    exists (auth_call E t (path_loop E t s0)),
           (gap (c_res (auth_call E t (path_loop E t s0)))).
    split; [apply last_call_at; assumption|].
    split; [reflexivity|].
    split.
    + apply gaps_final; [exact Ht|].
      rewrite (su_gaps _ _ _ _ _ _ _ _ _ _ _ _ Hsu).
      unfold np_ones. rewrite repeat_length. exact Ht.
    + rewrite (stdout_warning E _ s0 t
                 (su_stdout _ _ _ _ _ _ _ _ _ _ _ _ Hsu)), <- Htol.
      split.
      * intros Hle [_ Hlt]. exact (Qlt_not_le _ _ Hlt Hle).
      * intros Hno. apply Qnot_lt_le. intros Hlt. apply Hno. auto.
Qed.

(** C7.  When the authoritative solve at index [t] reports a gap above the
    tolerance, the two warning lines naming [t], the gap and [eps] are
    printed; every index of the grid still gets its authoritative solve;
    the coefficients that solve left are stored in column [t]; and they
    are the coefficients the first invocation at [t + 1] starts from. *)
Theorem non_convergence_warning
    X y lambdas beta_init fi eps mi scr f g st R t gp :
  lasso_path X y lambdas beta_init fi eps mi scr f g st = Ok R ->
  (t < len (grid_of lambdas))%nat ->
  gaps (final R) !! t = Some gp ->
  eps * norm_sq (y_after R) < gp ->
  (exists pre post,
     stdout (final R) = pre ++ [DidNotConverge t; GapEps gp eps] ++ post)
  /\ (forall u, (u < len (grid_of lambdas))%nat ->
        exists c, last (calls_at u (calls (final R))) = Some c
                  /\ is_probe c = false)
  /\ exists c,
       last (calls_at t (calls (final R))) = Some c
       /\ is_probe c = false
       /\ gap (c_res c) = gp
       /\ betas (final R) !! t = Some (beta (c_after c))
       /\ ((S t < len (grid_of lambdas))%nat ->
           exists c' rest,
             calls_at (S t) (calls (final R)) = c' :: rest
             /\ beta (c_before c') = beta (c_after c)).
Proof.
  intros HR Ht Hgp Hlt.
  destruct (lasso_path_Ok _ _ _ _ _ _ _ _ _ _ _ _ HR) as (E & s0 & Hsu).
  pose proof (su_calls _ _ _ _ _ _ _ _ _ _ _ _ Hsu) as Hcalls.
  pose proof (su_tol _ _ _ _ _ _ _ _ _ _ _ _ Hsu) as Htol.
  rewrite (su_final _ _ _ _ _ _ _ _ _ _ _ _ Hsu) in *.
  assert (Hg : gp = gap (c_res (auth_call E t (path_loop E t s0)))).
  { rewrite gaps_final in Hgp.
    - congruence.
    - exact Ht.
    - rewrite (su_gaps _ _ _ _ _ _ _ _ _ _ _ _ Hsu).
      unfold np_ones. rewrite repeat_length. exact Ht. }
  split; [|split].
  - destruct (stdout_split E _ s0 t Ht) as (pre & post & Hsplit).
    exists pre, post. rewrite Hsplit. unfold step_lines.
    assert (Hw : Qltb (e_tol E)
                   (Qabs (gap (c_res (auth_call E t (path_loop E t s0)))))
                 = true).
    { apply Qltb_lt. rewrite Htol, <- Hg.
      eapply Qlt_le_trans; [exact Hlt|apply Qle_Qabs]. }
    rewrite Hw, <- Hg, (su_eps _ _ _ _ _ _ _ _ _ _ _ _ Hsu). reflexivity.
  - intros u Hu. exists (auth_call E u (path_loop E u s0)).
    split; [apply last_call_at; assumption|reflexivity].
  - exists (auth_call E t (path_loop E t s0)).
    split; [apply last_call_at; assumption|].
    split; [reflexivity|].
    split; [symmetry; exact Hg|].
    split.
    + apply betas_final; [exact Ht|].
      rewrite (su_betas _ _ _ _ _ _ _ _ _ _ _ _ Hsu), repeat_length.
      exact Ht.
    + intros HS.
      destruct (first_call_after E _ s0 (S t) Hcalls (Nat.lt_0_succ t) HS)
        as (prev & c' & rest & Hlast & _ & Hc' & Hbeta & _).
      exists c', rest. split; [exact Hc'|].
      rewrite Hbeta. f_equal. f_equal.
      replace (S t - 1)%nat with t in Hlast by lia.
      rewrite last_call_at in Hlast by (assumption || lia).
      congruence.
Qed.

(** C8.  The only invocation at index 0 is the authoritative solve; the
    active-feature count reported at index 0 is 0 whenever [screening] is
    not [NO_SCREENING], whatever that solve returned, and is the count that
    solve returned when [screening] is [NO_SCREENING]. *)
Theorem first_active_count X y lambdas beta_init fi eps mi scr f g st R :
  lasso_path X y lambdas beta_init fi eps mi scr f g st = Ok R ->
  (0 < len (grid_of lambdas))%nat ->
  exists c,
    calls_at 0 (calls (final R)) = [c]
    /\ is_probe c = false
    /\ (scr <> NO_SCREENING ->
        n_active_features (final R) !! 0%nat = Some 0%Z)
    /\ (scr = NO_SCREENING ->
        n_active_features (final R) !! 0%nat = Some (n_active (c_res c))).
Proof.
  intros HR Hn.
  destruct (lasso_path_Ok _ _ _ _ _ _ _ _ _ _ _ _ HR) as (E & s0 & Hsu).
  pose proof (su_calls _ _ _ _ _ _ _ _ _ _ _ _ Hsu) as Hcalls.
  rewrite (su_final _ _ _ _ _ _ _ _ _ _ _ _ Hsu).
  destruct (first_call_0 E _ s0 Hcalls Hn) as [Hc _].
  exists (auth_call E 0 s0).
  split; [exact Hc|]. split; [reflexivity|].
  assert (Hl : (0 < length (n_active_features s0))%nat).
  { rewrite (su_n_active _ _ _ _ _ _ _ _ _ _ _ _ Hsu), repeat_length.
    exact Hn. }
  rewrite (n_active_final_0 E _ s0 Hn Hl),
          (su_screening _ _ _ _ _ _ _ _ _ _ _ _ Hsu).
  split; intros Hscr.
  - destruct (Z.eqb_spec scr NO_SCREENING); [contradiction|reflexivity].
  - rewrite Hscr. reflexivity.
Qed.

(** *** Centring and intercepts *)

(** C9 (as amended).  With [fit_intercept] set, the caller's [y] loses its
    mean and a dense [X] loses its column means, once, before the loop; a
    sparse [X] is left as it was; and the intercept at every index [t] is
    the mean of the original [y] minus the original column means dotted
    with column [t] of the coefficients.  Without [fit_intercept] neither
    [X] nor [y] changes and every intercept is 0.  In both cases every
    kernel invocation sees the same [y]. *)
Theorem centering_and_intercepts
    X y lambdas beta_init fi eps mi scr f g st R :
  lasso_path X y lambdas beta_init fi eps mi scr f g st = Ok R ->
  (fi = true ->
     y_after R = map (fun v => v - np_mean y) y
     /\ (issparse X = false -> X_after R = sub_rows X (col_means X))
     /\ (issparse X = true -> X_after R = X)
     /\ forall t, (t < len (grid_of lambdas))%nat ->
          exists b,
            betas (final R) !! t = Some b
            /\ intercepts (final R) !! t
               = Some (np_mean y - vdot (col_means X) b))
  /\ (fi = false ->
        X_after R = X /\ y_after R = y
        /\ forall t, (t < len (grid_of lambdas))%nat ->
             intercepts (final R) !! t = Some 0)
  /\ (forall c, In c (calls (final R)) -> a_y (c_args c) = y_after R).
Proof.
  intros HR.
  destruct (lasso_path_Ok _ _ _ _ _ _ _ _ _ _ _ _ HR) as (E & s0 & Hsu).
  pose proof (su_calls _ _ _ _ _ _ _ _ _ _ _ _ Hsu) as Hcalls.
  pose proof (su_y_after _ _ _ _ _ _ _ _ _ _ _ _ Hsu) as Hy.
  pose proof (su_X_after _ _ _ _ _ _ _ _ _ _ _ _ Hsu) as HX.
  pose proof (su_fit _ _ _ _ _ _ _ _ _ _ _ _ Hsu) as Hfit.
  pose proof (su_X_mean _ _ _ _ _ _ _ _ _ _ _ _ Hsu) as Hxm.
  pose proof (su_y_mean _ _ _ _ _ _ _ _ _ _ _ _ Hsu) as Hym.
  assert (Hli : length (intercepts s0) = len (grid_of lambdas)).
  { rewrite (su_intercepts _ _ _ _ _ _ _ _ _ _ _ _ Hsu).
    apply repeat_length. }
  assert (Hlb : length (betas s0) = len (grid_of lambdas)).
  { rewrite (su_betas _ _ _ _ _ _ _ _ _ _ _ _ Hsu). apply repeat_length. }
  rewrite (su_final _ _ _ _ _ _ _ _ _ _ _ _ Hsu).
  split; [|split].
  - intros ->. simpl in HX. split; [exact Hy|].
    split; [intros Hs; rewrite Hs in HX; exact HX|].
    split; [intros Hs; rewrite Hs in HX; exact HX|].
    intros t Ht.
    exists (beta (c_after (auth_call E t (path_loop E t s0)))).
    split; [apply betas_final; lia|].
    rewrite intercepts_final by lia.
    rewrite Hfit, Hxm, Hym. reflexivity.
  - intros ->. simpl in HX. split; [exact HX|]. split; [exact Hy|].
    intros t Ht. rewrite intercepts_final by lia.
    rewrite Hfit, (su_intercepts _ _ _ _ _ _ _ _ _ _ _ _ Hsu).
    apply lookup_repeat. exact Ht.
  - intros c Hc. rewrite <- (su_y _ _ _ _ _ _ _ _ _ _ _ _ Hsu).
    exact (loop_calls_y E _ s0 c Hcalls Hc).
Qed.

(** *** The [lambdas] argument and the absence of validation *)

Lemma loop_calls_1 E s :
  calls s = [] -> calls (path_loop E 1 s) = [auth_call E 0 s].
Proof.
  intros Hs. rewrite path_loop_calls, Hs. cbn [seq flat_map app].
  rewrite path_loop_0, app_nil_r. unfold step_calls.
  assert (Hwe : warm_enabled E 0 = false).
  { unfold warm_enabled. simpl. apply andb_false_r. }
  rewrite Hwe. reflexivity.
Qed.

Lemma auth_call_lambda E t s :
  a_lambda (c_args (auth_call E t s)) = getitem (e_lambdas E) t.
Proof. reflexivity. Qed.

(** C10.  A [lambdas] argument that is not an ndarray, a bare number or a
    list alike, is wrapped as [np.array([lambdas])], whose first axis has
    length one: the five output arrays have one entry and the kernel is
    invoked exactly once, with the element at index 0 of the wrapped array
    as its lambda, which for a list is the whole list. *)
Theorem non_ndarray_lambdas_single_point
    X y lambdas beta_init fi eps mi scr f g st :
  is_ndarray lambdas = false ->
  grid_of lambdas = np_array_singleton lambdas
  /\ len (grid_of lambdas) = 1%nat
  /\ forall R,
       lasso_path X y lambdas beta_init fi eps mi scr f g st = Ok R ->
       length (intercepts (final R)) = 1%nat
       /\ length (betas (final R)) = 1%nat
       /\ length (gaps (final R)) = 1%nat
       /\ length (n_iters (final R)) = 1%nat
       /\ length (n_active_features (final R)) = 1%nat
       /\ exists c,
            calls (final R) = [c]
            /\ is_probe c = false
            /\ a_lambda (c_args c) = getitem (np_array_singleton lambdas) 0
            /\ forall l, lambdas = PyList l -> a_lambda (c_args c) = VArr l.
Proof.
  intros Hnd.
  assert (Hgrid : grid_of lambdas = np_array_singleton lambdas).
  { destruct lambdas; [discriminate|reflexivity|reflexivity]. }
  assert (Hlen : len (grid_of lambdas) = 1%nat).
  { destruct lambdas; [discriminate|reflexivity|reflexivity]. }
  split; [exact Hgrid|]. split; [exact Hlen|].
  intros R HR.
  destruct (lasso_path_Ok _ _ _ _ _ _ _ _ _ _ _ _ HR) as (E & s0 & Hsu).
  pose proof (su_lambdas _ _ _ _ _ _ _ _ _ _ _ _ Hsu) as Hlam.
  rewrite (su_final _ _ _ _ _ _ _ _ _ _ _ _ Hsu), Hlen.
  rewrite (loop_length E intercepts (intercepts_own_slot E)),
          (loop_length E betas (betas_own_slot E)),
          (loop_length E gaps (gaps_own_slot E)),
          (loop_length E n_iters (n_iters_own_slot E)),
          (loop_length E n_active_features (n_active_own_slot E)).
  rewrite (su_intercepts _ _ _ _ _ _ _ _ _ _ _ _ Hsu),
          (su_betas _ _ _ _ _ _ _ _ _ _ _ _ Hsu),
          (su_gaps _ _ _ _ _ _ _ _ _ _ _ _ Hsu),
          (su_n_iters _ _ _ _ _ _ _ _ _ _ _ _ Hsu),
          (su_n_active _ _ _ _ _ _ _ _ _ _ _ _ Hsu).
  unfold np_zeros, np_ones. rewrite !repeat_length, Hlen.
  repeat (split; [reflexivity|]).
  exists (auth_call E 0 s0).
  split; [apply loop_calls_1; exact (su_calls _ _ _ _ _ _ _ _ _ _ _ _ Hsu)|].
  split; [reflexivity|].
  assert (Ha : a_lambda (c_args (auth_call E 0 s0))
               = getitem (np_array_singleton lambdas) 0).
  { rewrite auth_call_lambda, Hlam, Hgrid. reflexivity. }
  split; [exact Ha|].
  intros l ->. rewrite Ha. reflexivity.
Qed.

Lemma fold_left_length {A B} (f : list A -> B -> list A) (l : list B) :
  (forall acc x, length (f acc x) = length acc) ->
  forall acc, length (fold_left f l acc) = length acc.
Proof.
  intros Hf. induction l as [|x l IH]; intros acc; simpl; [reflexivity|].
  rewrite IH. apply Hf.
Qed.

Lemma mat_dot_length X b v :
  rows_ok X -> mat_dot X b = Ok v -> length v = fst (shape X).
Proof.
  destruct X as [n p rows|n p d i ip]; simpl; intros Hok H;
    destruct (Nat.eqb _ _); try discriminate; injection H as <-.
  - rewrite length_map. exact Hok.
  - rewrite fold_left_length.
    + apply repeat_length.
    + intros acc j. apply fold_left_length.
      intros acc' e. apply length_insert.
Qed.

Lemma mat_tdot_mismatch X r :
  length r <> fst (shape X) -> mat_tdot X r = Raise ValueError.
Proof.
  destruct X as [n p rows|n p d i ip]; simpl; intros Hne;
    destruct (Nat.eqb_spec (length r) n); congruence.
Qed.

Lemma well_formed_rows_ok X : well_formed X = true -> rows_ok X.
Proof.
  destruct X as [n p rows|n p d i ip]; simpl; [|trivial].
  intros H. apply andb_prop in H as [H _]. apply Nat.eqb_eq. exact H.
Qed.

Lemma sub_rows_ok X m : rows_ok X -> rows_ok (sub_rows X m).
Proof.
  destruct X as [n p rows|n p d i ip]; simpl; [|trivial].
  rewrite length_map. trivial.
Qed.

Lemma sub_rows_shape X m : shape (sub_rows X m) = shape X.
Proof. destruct X; reflexivity. Qed.

(** A target whose length is neither the number of samples nor one is
    rejected by numpy while the initial residual and correlations are
    computed, before the loop. *)
Lemma length_mismatch_raises X y lambdas beta_init fi eps mi scr f g st :
  well_formed X = true ->
  length y <> fst (shape X) -> length y <> 1%nat ->
  lasso_path X y lambdas beta_init fi eps mi scr f g st = Raise ValueError.
Proof.
  intros Hwf Hy H1. apply well_formed_rows_ok in Hwf.
  unfold lasso_path, bind.
  set (y' := if fi then map (fun v => v - np_mean y) y else y).
  set (X' := if fi && negb (issparse X)
             then sub_rows X (col_means X) else X).
  assert (Hy' : length y' = length y).
  { unfold y'. destruct fi; [apply length_map|reflexivity]. }
  assert (HX' : rows_ok X' /\ shape X' = shape X).
  { unfold X'. destruct (fi && negb (issparse X)).
    - split; [apply sub_rows_ok; exact Hwf|apply sub_rows_shape].
    - split; [exact Hwf|reflexivity]. }
  destruct HX' as [Hok Hshape].
  destruct (mat_dot X' _) as [Xb|[]] eqn:Hdot; [|reflexivity].
  apply mat_dot_length in Hdot; [|exact Hok].
  rewrite Hshape in Hdot.
  unfold np_sub. rewrite Hy', Hdot.
  destruct (Nat.eqb_spec (length y) (fst (shape X))); [contradiction|].
  destruct (Nat.eqb_spec (fst (shape X)) 1).
  - rewrite mat_tdot_mismatch; [reflexivity|].
    rewrite Hshape.
    destruct (issparse X && fi); rewrite ?length_map, Hy'; exact Hy.
  - destruct (Nat.eqb_spec (length y) 1); [contradiction|reflexivity].
Qed.

(** Whether the call raises does not depend on the grid. *)
Lemma raise_ignores_grid
    X y lambdas lambdas' beta_init fi eps mi scr f g st :
  is_Ok (lasso_path X y lambdas' beta_init fi eps mi scr f g st)
  = is_Ok (lasso_path X y lambdas beta_init fi eps mi scr f g st).
Proof.
  unfold lasso_path, bind.
  destruct (mat_dot _ _); [|reflexivity].
  destruct (np_sub _ _); [|reflexivity].
  destruct (mat_tdot _ _); reflexivity.
Qed.

(** C2 (as amended).  [lasso_path] checks nothing about the grid: whether
    it raises is the same for every grid; when it returns, every entry of
    the grid, positive or not, has been handed unchanged to an
    authoritative solve, and an empty grid returns empty outputs without a
    single kernel invocation.  What does stop a call before any kernel
    invocation is a target whose length is neither the number of samples
    nor one, which numpy rejects during the set-up. *)
Theorem no_grid_validation X y lambdas beta_init fi eps mi scr f g st :
  (well_formed X = true ->
   length y <> fst (shape X) -> length y <> 1%nat ->
   lasso_path X y lambdas beta_init fi eps mi scr f g st = Raise ValueError)
  /\ (forall lambdas',
        is_Ok (lasso_path X y lambdas' beta_init fi eps mi scr f g st)
        = is_Ok (lasso_path X y lambdas beta_init fi eps mi scr f g st))
  /\ forall R,
       lasso_path X y lambdas beta_init fi eps mi scr f g st = Ok R ->
       length (gaps (final R)) = len (grid_of lambdas)
       /\ length (betas (final R)) = len (grid_of lambdas)
       /\ (len (grid_of lambdas) = 0%nat -> calls (final R) = [])
       /\ forall t, (t < len (grid_of lambdas))%nat ->
            exists c,
              last (calls_at t (calls (final R))) = Some c
              /\ is_probe c = false
              /\ a_lambda (c_args c) = getitem (grid_of lambdas) t.
Proof.
  split; [apply length_mismatch_raises|].
  split; [intros lambdas'; apply raise_ignores_grid|].
  intros R HR.
  destruct (lasso_path_Ok _ _ _ _ _ _ _ _ _ _ _ _ HR) as (E & s0 & Hsu).
  pose proof (su_calls _ _ _ _ _ _ _ _ _ _ _ _ Hsu) as Hcalls.
  rewrite (su_final _ _ _ _ _ _ _ _ _ _ _ _ Hsu).
  rewrite (loop_length E gaps (gaps_own_slot E)),
          (loop_length E betas (betas_own_slot E)),
          (su_gaps _ _ _ _ _ _ _ _ _ _ _ _ Hsu),
          (su_betas _ _ _ _ _ _ _ _ _ _ _ _ Hsu).
  unfold np_ones. rewrite !repeat_length.
  split; [reflexivity|]. split; [reflexivity|]. split.
  - intros ->. rewrite path_loop_0. exact Hcalls.
  - intros t Ht. exists (auth_call E t (path_loop E t s0)).
    split; [apply last_call_at; assumption|].
    split; [reflexivity|].
    rewrite auth_call_lambda, (su_lambdas _ _ _ _ _ _ _ _ _ _ _ _ Hsu).
    reflexivity.
Qed.

End Facts.

(** * Further facts about the driver *)

Section More.

Variable cd_lasso : solver_args -> arrays -> solver_out * arrays.
Variable matrix_column_norm :
  nat -> nat -> vec -> list nat -> list nat -> option vec -> bool -> vec.

Local Abbreviation invoke := (invoke cd_lasso).
Local Abbreviation warm_start := (warm_start cd_lasso).
Local Abbreviation solve := (solve cd_lasso).
Local Abbreviation path_step := (path_step cd_lasso).
Local Abbreviation path_loop := (path_loop cd_lasso).
Local Abbreviation step_calls := (step_calls cd_lasso).
Local Abbreviation auth_call := (auth_call cd_lasso).
Local Abbreviation step_lines := (step_lines cd_lasso).
Local Abbreviation lasso_path := (lasso_path cd_lasso matrix_column_norm).
Local Abbreviation set_up := (set_up cd_lasso).
Local Abbreviation set_up_rest := (set_up_rest matrix_column_norm).
Local Abbreviation lasso_path_default :=
  (lasso_path_default cd_lasso matrix_column_norm).
Local Abbreviation test_lasso := (test_lasso cd_lasso matrix_column_norm).
Local Abbreviation loop_slot_initial := (loop_slot_initial cd_lasso).
Local Abbreviation loop_slot_final := (loop_slot_final cd_lasso).
Local Abbreviation loop_length := (loop_length cd_lasso).
Local Abbreviation calls_at_loop := (calls_at_loop cd_lasso).
Local Abbreviation path_loop_S := (path_loop_S cd_lasso).
Local Abbreviation path_loop_calls := (path_loop_calls cd_lasso).
Local Abbreviation last_call_at := (last_call_at cd_lasso).
Local Abbreviation step_calls_last := (step_calls_last cd_lasso).
Local Abbreviation warm_start_arrs := (warm_start_arrs cd_lasso).
Local Abbreviation warm_start_calls := (warm_start_calls cd_lasso).
Local Abbreviation invoke_before := (invoke_before cd_lasso).
Local Abbreviation path_step_calls := (path_step_calls cd_lasso).
Local Abbreviation loop_arrs := (loop_arrs cd_lasso).
Local Abbreviation first_call_0 := (first_call_0 cd_lasso).
Local Abbreviation first_call_after := (first_call_after cd_lasso).
Local Abbreviation loop_calls_tol := (loop_calls_tol cd_lasso).
Local Abbreviation path_loop_0 := (path_loop_0 cd_lasso).
Local Abbreviation calls_at_same := (calls_at_same cd_lasso).
Local Abbreviation calls_at_other := (calls_at_other cd_lasso).
Local Abbreviation n_active_own_slot := (n_active_own_slot cd_lasso matrix_column_norm).
Local Abbreviation gaps_own_slot := (gaps_own_slot cd_lasso matrix_column_norm).
Local Abbreviation n_iters_own_slot := (n_iters_own_slot cd_lasso matrix_column_norm).
Local Abbreviation betas_own_slot := (betas_own_slot cd_lasso matrix_column_norm).
Local Abbreviation intercepts_own_slot := (intercepts_own_slot cd_lasso matrix_column_norm).
Local Abbreviation lasso_path_Ok := (lasso_path_Ok cd_lasso matrix_column_norm).
Local Abbreviation path_loop_stdout := (path_loop_stdout cd_lasso matrix_column_norm).
Local Abbreviation gaps_final := (gaps_final cd_lasso matrix_column_norm).
Local Abbreviation betas_final := (betas_final cd_lasso matrix_column_norm).
Local Abbreviation warm_start_outputs := (warm_start_outputs cd_lasso matrix_column_norm).
Local Abbreviation path_step_n_iters := (path_step_n_iters cd_lasso matrix_column_norm).
Local Abbreviation path_step_n_active := (path_step_n_active cd_lasso matrix_column_norm).
Local Abbreviation stdout_warning := (stdout_warning cd_lasso matrix_column_norm).
Local Abbreviation step_lines_warning := (step_lines_warning cd_lasso matrix_column_norm).

(** *** From [lasso_path] to the loop, with the remaining arguments *)

Lemma lasso_path_Ok_rest X y lambdas beta_init fi eps mi scr f g st R :
  lasso_path X y lambdas beta_init fi eps mi scr f g st = Ok R ->
  exists E s0,
    set_up X y lambdas fi eps scr g st R E s0
    /\ set_up_rest X y beta_init fi mi f R E s0.
Proof.
  unfold lasso_path, bind. intros H.
  destruct (mat_dot _ _) as [Xb|] eqn:Hdot; [|discriminate].
  destruct (np_sub _ _) as [r0|] eqn:Hsub; [|discriminate].
  destruct (mat_tdot _ _) as [xtr|] eqn:Htdot; [|discriminate].
  injection H as HR. subst R.
  eexists; eexists; split; constructor; try reflexivity.
  - cbn [X_after y_after arrs beta residual].
    exists Xb, r0. split; [exact Hdot|]. split; [exact Hsub|].
    destruct fi, (issparse X); reflexivity.
  - cbn [X_after y_after arrs XTR residual]. exact Htdot.
Qed.

(** *** Which invocations are made *)

Lemma warm_start_run_flag E t s :
  e_gap_active_warm_start E = false ->
  run_active_warm_start (warm_start E t s) = run_active_warm_start s.
Proof.
  intros Hg. unfold warm_start, run_flag.
  destruct (warm_enabled E t); [|reflexivity].
  rewrite Hg. destruct (run_active_warm_start s); reflexivity.
Qed.

Lemma loop_run_flag E n s :
  e_gap_active_warm_start E = false ->
  run_active_warm_start (path_loop E n s) = run_active_warm_start s.
Proof.
  intros Hg. induction n as [|n IH]; [reflexivity|].
  rewrite path_loop_S. unfold path_step, solve.
  cbn [run_active_warm_start]. rewrite warm_start_run_flag by exact Hg.
  exact IH.
Qed.

(** The value of the test at line 153 when iteration [t] is reached. *)
Lemma run_flag_at E s t :
  n_active_features s !! t = Some 0%Z ->
  run_flag E t (path_loop E t s)
  = if e_gap_active_warm_start E
    then negb (Nat.eqb (e_n_features E) 0)
    else run_active_warm_start s.
Proof.
  intros Hinit. unfold run_flag.
  destruct (e_gap_active_warm_start E) eqn:Hg.
  - pose proof (loop_slot_initial E n_active_features
                  (n_active_own_slot E) t t s (Nat.le_refl t))
      as Hslot.
    rewrite Hinit in Hslot. rewrite (nth_lookup_Some _ _ _ _ Hslot).
    destruct (Nat.eqb_spec (e_n_features E) 0) as [->|Hne]; simpl.
    + reflexivity.
    + apply Z.ltb_lt. lia.
  - apply loop_run_flag. exact Hg.
Qed.

Lemma warm_enabled_pos E t :
  (0 < t)%nat ->
  warm_enabled E t
  = e_strong_active_warm_start E || e_gap_active_warm_start E.
Proof.
  intros Ht. unfold warm_enabled.
  destruct t; [lia|]. apply andb_true_r.
Qed.

Lemma warm_enabled_0 E : warm_enabled E 0 = false.
Proof. unfold warm_enabled. apply andb_false_r. Qed.

(** X1.  Which invocations a call makes.  At index 0 there is the
    authoritative solve alone.  At an index [t > 0] a probe comes first
    exactly when [gap_active_warm_start] is set and there is at least one
    feature, or when it is not set and [strong_active_warm_start] is; the
    authoritative solve then starts from the arrays the probe left. *)
Theorem probe_schedule X y lambdas beta_init fi eps mi scr f g st R t :
  lasso_path X y lambdas beta_init fi eps mi scr f g st = Ok R ->
  (t < len (grid_of lambdas))%nat ->
  exists a,
    is_probe a = false
    /\ ((t = 0%nat
         \/ (if g then Nat.eqb (snd (shape X)) 0 else negb st) = true) ->
        calls_at t (calls (final R)) = [a])
    /\ ((0 < t)%nat ->
        (if g then negb (Nat.eqb (snd (shape X)) 0) else st) = true ->
        exists p,
          calls_at t (calls (final R)) = [p; a]
          /\ is_probe p = true
          /\ c_before a = c_after p).
Proof.
  intros HR Ht.
  destruct (lasso_path_Ok _ _ _ _ _ _ _ _ _ _ _ _ HR) as (E & s0 & Hsu).
  pose proof (su_calls _ _ _ _ _ _ _ _ _ _ _ _ Hsu) as Hcalls.
  pose proof (su_gap _ _ _ _ _ _ _ _ _ _ _ _ Hsu) as Hg.
  pose proof (su_strong _ _ _ _ _ _ _ _ _ _ _ _ Hsu) as Hst.
  rewrite (su_final _ _ _ _ _ _ _ _ _ _ _ _ Hsu).
  rewrite calls_at_loop by assumption.
  assert (Hflag : run_flag E t (path_loop E t s0)
                  = if g then negb (Nat.eqb (snd (shape X)) 0) else true).
  { rewrite run_flag_at.
    - rewrite Hg, (su_n_features _ _ _ _ _ _ _ _ _ _ _ _ Hsu),
              (su_run_flag _ _ _ _ _ _ _ _ _ _ _ _ Hsu). reflexivity.
    - rewrite (su_n_active _ _ _ _ _ _ _ _ _ _ _ _ Hsu).
      apply lookup_repeat. exact Ht. }
  exists (auth_call E t (path_loop E t s0)).
  split; [reflexivity|]. unfold step_calls. split.
  - intros [->|Hoff].
    + rewrite warm_enabled_0. reflexivity.
    + destruct t as [|t]; [rewrite warm_enabled_0; reflexivity|].
      rewrite warm_enabled_pos by lia. rewrite Hflag, Hg, Hst.
      destruct g.
      * rewrite Hoff, andb_false_r. reflexivity.
      * apply negb_true_iff in Hoff. rewrite Hoff. reflexivity.
  - intros H0 Hon.
    assert (Hwe : warm_enabled E t = true).
    { rewrite warm_enabled_pos by exact H0. rewrite Hg, Hst.
      destruct g; [apply orb_true_r|]. rewrite Hon. reflexivity. }
    assert (Hrun : run_flag E t (path_loop E t s0) = true).
    { rewrite Hflag. destruct g; [exact Hon|reflexivity]. }
    rewrite Hwe, Hrun. cbn [andb app].
    eexists. split; [reflexivity|]. split; [reflexivity|].
    unfold auth_call. rewrite invoke_before, warm_start_arrs, Hwe, Hrun.
    reflexivity.
Qed.

(** *** How one invocation follows another *)

Lemma threaded_snoc st l c :
  threaded st l ->
  (forall c', last l = Some c' -> follows st c' c) ->
  threaded st (l ++ [c]).
Proof.
  induction l as [|c1 l IH]; intros Hl Hlast; [exact I|].
  destruct l as [|c2 l].
  - simpl. split; [|exact I]. apply Hlast. reflexivity.
  - destruct Hl as [H12 Hl]. split; [exact H12|].
    apply IH; [exact Hl|]. intros c' Hc'. apply Hlast. exact Hc'.
Qed.

Lemma warm_start_sum_residual E t s :
  sum_residual (warm_start E t s)
  = if warm_enabled E t && run_flag E t s
    then sum_residual_out
           (c_res (invoke E t (sum_residual s) 1 (seeded E t s)))
    else sum_residual s.
Proof.
  unfold warm_start.
  destruct (warm_enabled E t); [|reflexivity].
  destruct (run_flag E t s); reflexivity.
Qed.

Lemma seeded_rest E t s :
  beta (seeded E t s) = beta (arrs s)
  /\ XTR (seeded E t s) = XTR (arrs s)
  /\ residual (seeded E t s) = residual (arrs s)
  /\ (e_strong_active_warm_start E = false -> seeded E t s = arrs s).
Proof.
  unfold seeded.
  destruct (e_strong_active_warm_start E); repeat split; discriminate.
Qed.

(** What the loop keeps about its log: it is threaded, and the state
    after [n] iterations is what the last invocation, the authoritative
    solve at [n - 1], left. *)
Lemma loop_threaded E n s :
  calls s = [] ->
  threaded (e_strong_active_warm_start E) (calls (path_loop E n s))
  /\ forall c, last (calls (path_loop E n s)) = Some c ->
       arrs (path_loop E n s) = c_after c
       /\ sum_residual (path_loop E n s) = sum_residual_out (c_res c)
       /\ is_probe c = false
       /\ S (c_t c) = n.
Proof.
  intros Hs. induction n as [|n [IHt IHl]].
  - rewrite path_loop_0, Hs. split; [exact I|]. intros c Hc. discriminate.
  - rewrite path_loop_S. set (sn := path_loop E n s) in *.
    rewrite path_step_calls. unfold step_calls.
    rewrite app_assoc. split.
    + apply threaded_snoc.
      * destruct (warm_enabled E n && run_flag E n sn);
          [|rewrite app_nil_r; exact IHt].
        apply threaded_snoc; [exact IHt|].
        intros c' Hc'. destruct (IHl c' Hc') as (Ha & Hsr & Hp & Hn).
        destruct (seeded_rest E n sn) as (Hb & Hx & Hr & Hm).
        unfold follows. rewrite invoke_before, <- Ha.
        repeat split; try assumption.
        -- right. split; [exact Hp|]. symmetry; exact Hn.
        -- intros [Heq|Hoff].
           ++ cbn in Heq. lia.
           ++ rewrite (Hm Hoff). reflexivity.
      * intros c' Hc'.
        unfold auth_call, follows.
        rewrite invoke_before, warm_start_arrs, warm_start_sum_residual.
        destruct (warm_enabled E n) eqn:Hwe, (run_flag E n sn) eqn:Hrun;
          cbn [andb app] in *.
        -- rewrite last_snoc in Hc'. injection Hc' as <-.
           repeat split. left. repeat split.
        -- rewrite app_nil_r in Hc'.
           destruct (IHl c' Hc') as (Ha & Hsr & Hp & Hn).
           destruct (seeded_rest E n sn) as (Hb & Hx & Hr & Hm).
           rewrite <- Ha. repeat split; try assumption.
           ++ right. split; [exact Hp|]. symmetry; exact Hn.
           ++ intros [Heq|Hoff]; [cbn in Heq; lia|].
              rewrite (Hm Hoff). reflexivity.
        -- rewrite app_nil_r in Hc'.
           destruct (IHl c' Hc') as (Ha & Hsr & Hp & Hn).
           rewrite <- Ha. repeat split; try assumption.
           right. split; [exact Hp|]. symmetry; exact Hn.
        -- rewrite app_nil_r in Hc'.
           destruct (IHl c' Hc') as (Ha & Hsr & Hp & Hn).
           rewrite <- Ha. repeat split; try assumption.
           right. split; [exact Hp|]. symmetry; exact Hn.
    + intros c Hc. rewrite last_snoc in Hc. injection Hc as <-.
      repeat split.
Qed.

(** X2.  The state is threaded through the whole run: every invocation is
    handed the running residual sum the previous one returned and starts
    from the coefficients, correlations and residual it left; a probe is
    followed by the authoritative solve of the same index, an
    authoritative solve by the first invocation of the next index; and the
    mask is handed on too, except between two indices when the strong rule
    rebinds it. *)
Theorem state_threaded X y lambdas beta_init fi eps mi scr f g st R :
  lasso_path X y lambdas beta_init fi eps mi scr f g st = Ok R ->
  threaded st (calls (final R)).
Proof.
  intros HR.
  destruct (lasso_path_Ok _ _ _ _ _ _ _ _ _ _ _ _ HR) as (E & s0 & Hsu).
  rewrite (su_final _ _ _ _ _ _ _ _ _ _ _ _ Hsu),
          <- (su_strong _ _ _ _ _ _ _ _ _ _ _ _ Hsu).
  apply loop_threaded. exact (su_calls _ _ _ _ _ _ _ _ _ _ _ _ Hsu).
Qed.

(** *** What every invocation is handed *)

Lemma step_calls_args E t s c :
  In c (step_calls E t s) ->
  c_t c = t
  /\ exists sr w, c_args c = mk_args E (getitem (e_lambdas E) t) sr w.
Proof.
  unfold step_calls. intros Hin.
  apply in_app_or in Hin as [Hin|[<-|[]]].
  - destruct (_ && _); [|destruct Hin].
    destruct Hin as [<-|[]]. split; [reflexivity|].
    eexists; eexists; reflexivity.
  - split; [reflexivity|]. eexists; eexists; reflexivity.
Qed.

(** X3.  Every invocation of a run, probe or authoritative, belongs to an
    index of the grid and is handed the lambda at that index, together
    with the caller's [max_iter], [f] and [screening], the centring and
    sparsity flags, the column means when centring, the squared norm of the
    centred target and, for a dense [X], the sums of squares of the columns
    of the centred matrix. *)
Theorem arguments_forwarded X y lambdas beta_init fi eps mi scr f g st R c :
  lasso_path X y lambdas beta_init fi eps mi scr f g st = Ok R ->
  In c (calls (final R)) ->
  (c_t c < len (grid_of lambdas))%nat
  /\ a_lambda (c_args c) = getitem (grid_of lambdas) (c_t c)
  /\ a_max_iter (c_args c) = mi
  /\ a_f (c_args c) = f
  /\ a_screening (c_args c) = scr
  /\ a_center (c_args c) = fi
  /\ a_sparse (c_args c) = issparse X
  /\ a_X_mean (c_args c) = (if fi then Some (col_means X) else None)
  /\ a_nrm2_y (c_args c) = norm_sq (y_after R)
  /\ (issparse X = false ->
      a_norm_Xcent (c_args c) = col_sq_sums (X_after R)
      /\ exists n p rows, X_after R = Dense n p rows
                          /\ a_X_ (c_args c) = Some rows).
Proof.
  intros HR Hc.
  destruct (lasso_path_Ok_rest _ _ _ _ _ _ _ _ _ _ _ _ HR)
    as (E & s0 & Hsu & Hsr).
  rewrite (su_final _ _ _ _ _ _ _ _ _ _ _ _ Hsu), path_loop_calls,
          (su_calls _ _ _ _ _ _ _ _ _ _ _ _ Hsu) in Hc.
  cbn [app] in Hc. apply in_flat_map in Hc as (t & Ht & Hin).
  apply in_seq in Ht.
  apply step_calls_args in Hin as (-> & sr & w & ->). cbn.
  rewrite (su_lambdas _ _ _ _ _ _ _ _ _ _ _ _ Hsu),
          (su_screening _ _ _ _ _ _ _ _ _ _ _ _ Hsu),
          (su_X_mean _ _ _ _ _ _ _ _ _ _ _ _ Hsu),
          (sr_max_iter _ _ _ _ _ _ _ _ _ _ Hsr),
          (sr_f _ _ _ _ _ _ _ _ _ _ Hsr),
          (sr_center _ _ _ _ _ _ _ _ _ _ Hsr),
          (sr_sparse _ _ _ _ _ _ _ _ _ _ Hsr),
          (sr_nrm2_y _ _ _ _ _ _ _ _ _ _ Hsr),
          (sr_norm_Xcent _ _ _ _ _ _ _ _ _ _ Hsr),
          (sr_X_ _ _ _ _ _ _ _ _ _ _ Hsr).
  repeat (split; [reflexivity || lia|]).
  intros Hdense.
  pose proof (su_X_after _ _ _ _ _ _ _ _ _ _ _ _ Hsu) as HX.
  destruct X as [n p rows|]; [|discriminate]. cbn in HX.
  rewrite andb_true_r in HX. rewrite HX.
  destruct fi; cbn; (split; [reflexivity|]);
    eexists; eexists; eexists; split; reflexivity.
Qed.

(** *** The diagnostics returned *)

Lemma n_iters_final E n s t :
  (t < n)%nat -> (t < length (n_iters s))%nat ->
  n_iters (path_loop E n s) !! t
  = Some (n_iter (c_res (auth_call E t (path_loop E t s)))).
Proof.
  intros Ht Hl.
  rewrite (loop_slot_final E n_iters (n_iters_own_slot E)) by exact Ht.
  rewrite path_loop_S, path_step_n_iters.
  apply list_lookup_insert_eq.
  rewrite (loop_length E n_iters (n_iters_own_slot E)). exact Hl.
Qed.

Lemma n_active_final_pos E n s t :
  (0 < t)%nat -> (t < n)%nat -> (t < length (n_active_features s))%nat ->
  n_active_features (path_loop E n s) !! t
  = Some (n_active (c_res (auth_call E t (path_loop E t s)))).
Proof.
  intros H0 Ht Hl.
  rewrite (loop_slot_final E n_active_features (n_active_own_slot E))
    by exact Ht.
  rewrite path_loop_S, path_step_n_active.
  destruct (Nat.eqb_spec t 0) as [->|_]; [lia|]. cbn [andb].
  apply list_lookup_insert_eq.
  rewrite (loop_length E n_active_features (n_active_own_slot E)). exact Hl.
Qed.

(** X4.  The iteration count reported at every index, and the
    active-feature count reported at every index but the first, are those
    the authoritative solve of that index returned, whatever the screening
    mode: what a probe returns is never reported. *)
Theorem diagnostics_from_authoritative
    X y lambdas beta_init fi eps mi scr f g st R t :
  lasso_path X y lambdas beta_init fi eps mi scr f g st = Ok R ->
  (t < len (grid_of lambdas))%nat ->
  exists c,
    last (calls_at t (calls (final R))) = Some c
    /\ is_probe c = false
    /\ n_iters (final R) !! t = Some (n_iter (c_res c))
    /\ ((0 < t)%nat ->
        n_active_features (final R) !! t = Some (n_active (c_res c))).
Proof.
  intros HR Ht.
  destruct (lasso_path_Ok _ _ _ _ _ _ _ _ _ _ _ _ HR) as (E & s0 & Hsu).
  pose proof (su_calls _ _ _ _ _ _ _ _ _ _ _ _ Hsu) as Hcalls.
  rewrite (su_final _ _ _ _ _ _ _ _ _ _ _ _ Hsu).
  exists (auth_call E t (path_loop E t s0)).
  split; [apply last_call_at; assumption|].
  split; [reflexivity|]. split.
  - apply n_iters_final; [exact Ht|].
    rewrite (su_n_iters _ _ _ _ _ _ _ _ _ _ _ _ Hsu), repeat_length.
    exact Ht.
  - intros H0. apply n_active_final_pos; [exact H0|exact Ht|].
    rewrite (su_n_active _ _ _ _ _ _ _ _ _ _ _ _ Hsu), repeat_length.
    exact Ht.
Qed.

(** *** What is printed *)

Lemma flat_map_ext_seq {A} (f h : nat -> list A) n :
  (forall t, (t < n)%nat -> f t = h t) ->
  flat_map f (seq 0 n) = flat_map h (seq 0 n).
Proof.
  intros Hfh. induction n as [|n IH]; [reflexivity|].
  rewrite seq_S, !flat_map_app. cbn [flat_map Nat.add].
  rewrite IH, (Hfh n) by (intros; try apply Hfh; lia). reflexivity.
Qed.

(** X5.  What a call prints is determined by the gaps it returns: for
    every index, in the order of the grid, the two warning lines when the
    absolute value of the gap exceeds [eps * ||y||^2], and nothing
    otherwise.  In particular nothing at all is printed exactly when that
    expression yields no line. *)
Theorem printed_lines X y lambdas beta_init fi eps mi scr f g st R :
  lasso_path X y lambdas beta_init fi eps mi scr f g st = Ok R ->
  stdout (final R)
  = lines_of_gaps (eps * norm_sq (y_after R)) eps (len (grid_of lambdas))
      (gaps (final R)).
Proof.
  intros HR.
  destruct (lasso_path_Ok _ _ _ _ _ _ _ _ _ _ _ _ HR) as (E & s0 & Hsu).
  rewrite (su_final _ _ _ _ _ _ _ _ _ _ _ _ Hsu), path_loop_stdout,
          (su_stdout _ _ _ _ _ _ _ _ _ _ _ _ Hsu).
  cbn [app]. unfold lines_of_gaps. apply flat_map_ext_seq.
  intros t Ht. rewrite gaps_final.
  - unfold step_lines.
    rewrite (su_tol _ _ _ _ _ _ _ _ _ _ _ _ Hsu),
            (su_eps _ _ _ _ _ _ _ _ _ _ _ _ Hsu). reflexivity.
  - exact Ht.
  - rewrite (su_gaps _ _ _ _ _ _ _ _ _ _ _ _ Hsu).
    unfold np_ones. rewrite repeat_length. exact Ht.
Qed.

(** *** When the set-up succeeds *)

Lemma mat_dot_mismatch X b :
  length b <> snd (shape X) -> mat_dot X b = Raise ValueError.
Proof.
  destruct X as [n p rows|n p d i ip]; simpl; intros Hne;
    destruct (Nat.eqb_spec (length b) p); congruence.
Qed.

Lemma mat_dot_defined X b :
  length b = snd (shape X) -> exists v, mat_dot X b = Ok v.
Proof.
  destruct X as [n p rows|n p d i ip]; simpl; intros ->;
    rewrite Nat.eqb_refl; eexists; reflexivity.
Qed.

Lemma mat_tdot_defined X r :
  length r = fst (shape X) -> exists v, mat_tdot X r = Ok v.
Proof.
  destruct X as [n p rows|n p d i ip]; simpl; intros ->;
    rewrite Nat.eqb_refl; eexists; reflexivity.
Qed.

Lemma np_sub_length a b r :
  np_sub a b = Ok r ->
  (length a = length b \/ length a = 1%nat -> length r = length b)
  /\ (length b = 1%nat -> length r = length a).
Proof.
  unfold np_sub.
  destruct (Nat.eqb_spec (length a) (length b)) as [Hab|Hab].
  - intros H. injection H as <-. rewrite length_zip_with. lia.
  - destruct (Nat.eqb_spec (length b) 1) as [Hb|Hb].
    + intros H. injection H as <-. rewrite length_map. lia.
    + destruct (Nat.eqb_spec (length a) 1) as [Ha|Ha]; [|discriminate].
      intros H. injection H as <-. rewrite length_map. lia.
Qed.

Lemma np_sub_defined a b :
  length a = length b \/ length a = 1%nat -> exists r, np_sub a b = Ok r.
Proof.
  unfold np_sub. intros H.
  destruct (Nat.eqb_spec (length a) (length b)); [eexists; reflexivity|].
  destruct (Nat.eqb_spec (length b) 1); [eexists; reflexivity|].
  destruct (Nat.eqb_spec (length a) 1); [eexists; reflexivity|]. lia.
Qed.

(** X6.  For a well-formed [X], a call gets past the set-up, to the loop
    and a returned result, exactly when a given [beta_init] has one entry
    per feature and the target has one entry per sample or a single
    entry; the grid and the other arguments play no part. *)
Theorem set_up_succeeds_iff X y lambdas beta_init fi eps mi scr f g st :
  well_formed X = true ->
  is_Ok (lasso_path X y lambdas beta_init fi eps mi scr f g st) = true
  <-> (forall b, beta_init = Some b -> length b = snd (shape X))
      /\ (length y = fst (shape X) \/ length y = 1%nat).
Proof.
  intros Hwf. pose proof (well_formed_rows_ok X Hwf) as Hok.
  unfold lasso_path, bind.
  set (y' := if fi then map (fun v => v - np_mean y) y else y).
  set (X' := if fi && negb (issparse X)
             then sub_rows X (col_means X) else X).
  set (b0 := match beta_init with
             | Some b => b
             | None => np_zeros (snd (shape X))
             end).
  assert (Hy' : length y' = length y).
  { unfold y'. destruct fi; [apply length_map|reflexivity]. }
  assert (HX' : rows_ok X' /\ shape X' = shape X).
  { unfold X'. destruct (fi && negb (issparse X)).
    - split; [apply sub_rows_ok; exact Hok|apply sub_rows_shape].
    - split; [exact Hok|reflexivity]. }
  destruct HX' as [Hok' Hshape].
  assert (Hb0 : length b0 = snd (shape X)
                <-> forall b, beta_init = Some b -> length b = snd (shape X)).
  { unfold b0. destruct beta_init as [b|].
    - split; [intros H b' Hb'; congruence|intros H; apply H; reflexivity].
    - unfold np_zeros. rewrite repeat_length. split; [discriminate|reflexivity]. }
  rewrite <- Hb0. clear Hb0. split.
  - intros H.
    destruct (Nat.eq_dec (length b0) (snd (shape X))) as [Hb|Hb].
    + split; [exact Hb|].
      destruct (mat_dot X' b0) as [Xb|] eqn:Hdot; [|discriminate].
      apply mat_dot_length in Hdot; [|exact Hok']. rewrite Hshape in Hdot.
      destruct (np_sub y' Xb) as [r0|] eqn:Hsub; [|discriminate].
      destruct (Nat.eq_dec (length y) (fst (shape X))); [left; assumption|].
      destruct (Nat.eq_dec (length y) 1%nat); [right; assumption|].
      exfalso. unfold np_sub in Hsub. rewrite Hy', Hdot in Hsub.
      destruct (Nat.eqb_spec (length y) (fst (shape X))); [contradiction|].
      destruct (Nat.eqb_spec (fst (shape X)) 1) as [H1|H1].
      * injection Hsub as <-.
        rewrite mat_tdot_mismatch in H; [discriminate|].
        rewrite Hshape.
        destruct (issparse X && fi); rewrite ?length_map, Hy'; assumption.
      * destruct (Nat.eqb_spec (length y) 1); [contradiction|discriminate].
    + rewrite mat_dot_mismatch in H; [discriminate|].
      rewrite Hshape. exact Hb.
  - intros [Hb Hy].
    destruct (mat_dot_defined X' b0) as [Xb Hdot];
      [rewrite Hshape; exact Hb|].
    rewrite Hdot.
    apply mat_dot_length in Hdot; [|exact Hok']. rewrite Hshape in Hdot.
    destruct (np_sub_defined y' Xb) as [r0 Hsub]; [rewrite Hy', Hdot; exact Hy|].
    rewrite Hsub.
    destruct (np_sub_length _ _ _ Hsub) as [Hlen _].
    rewrite Hy', Hdot in Hlen. specialize (Hlen Hy).
    destruct (mat_tdot_defined X'
                (if issparse X && fi
                 then map (fun v => v + mean_dot
                                      (if fi then Some (col_means X) else None)
                                      b0) r0
                 else r0)) as [xtr Htdot].
    { rewrite Hshape.
      destruct (issparse X && fi); rewrite ?length_map; exact Hlen. }
    rewrite Htdot. reflexivity.
Qed.

(** *** Sums of rationals *)

Lemma fold_plus_acc (l : vec) (a : Q) : fold_left Qplus l a == a + np_sum l.
Proof.
  unfold np_sum. revert a.
  induction l as [|x l IH]; intros a; simpl.
  - ring.
  - rewrite (IH (a + x)), (IH (0 + x)). ring.
Qed.

Lemma np_sum_cons (x : Q) (l : vec) : np_sum (x :: l) == x + np_sum l.
Proof.
  unfold np_sum at 1. simpl. rewrite fold_plus_acc. ring.
Qed.

Lemma np_sum_nonneg (l : vec) :
  Forall (fun q => 0 <= q) l -> 0 <= np_sum l.
Proof.
  induction 1 as [|x l Hx _ IH].
  - apply Qle_refl.
  - rewrite np_sum_cons.
    replace 0 with (0 + 0) by reflexivity.
    apply Qplus_le_compat; assumption.
Qed.

Lemma square_nonneg (v : Q) : 0 <= v * v.
Proof.
  destruct v as [n d]. unfold Qle, Qmult. simpl. nia.
Qed.

Lemma norm_sq_nonneg (y : vec) : 0 <= norm_sq y.
Proof.
  unfold norm_sq. apply np_sum_nonneg.
  induction y as [|v y IH]; simpl; constructor.
  - apply square_nonneg.
  - exact IH.
Qed.

(** *** The sign of the tolerance *)

(** X7.  With [eps >= 0] the tolerance handed to every invocation is
    non-negative, so a solve that reports a gap of zero is never warned
    about. *)
Theorem zero_gap_never_warned X y lambdas beta_init fi eps mi scr f g st R :
  lasso_path X y lambdas beta_init fi eps mi scr f g st = Ok R ->
  0 <= eps ->
  (forall c, In c (calls (final R)) -> 0 <= a_tol (c_args c))
  /\ forall t gp,
       gaps (final R) !! t = Some gp -> gp == 0 ->
       ~ In (DidNotConverge t) (stdout (final R)).
Proof.
  intros HR Heps.
  destruct (lasso_path_Ok _ _ _ _ _ _ _ _ _ _ _ _ HR) as (E & s0 & Hsu).
  pose proof (su_calls _ _ _ _ _ _ _ _ _ _ _ _ Hsu) as Hcalls.
  pose proof (su_tol _ _ _ _ _ _ _ _ _ _ _ _ Hsu) as Htol.
  assert (Hpos : 0 <= e_tol E).
  { rewrite Htol. apply Qmult_le_0_compat; [exact Heps|].
    apply norm_sq_nonneg. }
  rewrite (su_final _ _ _ _ _ _ _ _ _ _ _ _ Hsu).
  split.
  - intros c Hc. rewrite (loop_calls_tol E _ s0 c Hcalls Hc). exact Hpos.
  - intros t gp Hgp Hzero Hin.
    apply (stdout_warning E _ s0 t
             (su_stdout _ _ _ _ _ _ _ _ _ _ _ _ Hsu)) in Hin
      as [Ht Hlt].
    rewrite gaps_final in Hgp.
    + injection Hgp as Hgp.
      change (gap (c_res (auth_call E t (path_loop E t s0))) = gp) in Hgp.
      rewrite Hgp, Hzero in Hlt.
      exact (Qlt_not_le _ _ Hlt Hpos).
    + exact Ht.
    + rewrite (su_gaps _ _ _ _ _ _ _ _ _ _ _ _ Hsu).
      unfold np_ones. rewrite repeat_length. exact Ht.
Qed.

(** X8.  With [eps < 0] and a target that is not all zeros after
    centring, the tolerance is negative and every index of the grid is
    reported as not converged, whatever the kernel returns. *)
Theorem negative_eps_always_warns
    X y lambdas beta_init fi eps mi scr f g st R t :
  lasso_path X y lambdas beta_init fi eps mi scr f g st = Ok R ->
  eps < 0 -> 0 < norm_sq (y_after R) ->
  (t < len (grid_of lambdas))%nat ->
  In (DidNotConverge t) (stdout (final R)).
Proof.
  intros HR Heps Hy Ht.
  destruct (lasso_path_Ok _ _ _ _ _ _ _ _ _ _ _ _ HR) as (E & s0 & Hsu).
  rewrite (su_final _ _ _ _ _ _ _ _ _ _ _ _ Hsu).
  apply (stdout_warning E _ s0 t (su_stdout _ _ _ _ _ _ _ _ _ _ _ _ Hsu)).
  split; [exact Ht|].
  rewrite (su_tol _ _ _ _ _ _ _ _ _ _ _ _ Hsu).
  apply Qlt_le_trans with 0; [|apply Qabs_nonneg].
  pose proof (Qmult_lt_compat_r _ _ _ Hy Heps) as Hneg.
  rewrite Qmult_0_l in Hneg. exact Hneg.
Qed.

(** *** The strong rule on a grid that at least halves *)

Lemma strong_rule_nonpositive xtr a b :
  2 * a - b <= 0 -> strong_rule xtr a b = repeat 0%Z (length xtr).
Proof.
  intros Hthr. unfold strong_rule.
  induction xtr as [|x xtr IH]; simpl; [reflexivity|].
  rewrite IH. f_equal.
  assert (Hge : Qltb (Qabs x) (2 * a - b) = false).
  { apply Qltb_ge. apply Qle_trans with 0; [exact Hthr|apply Qabs_nonneg]. }
  rewrite Hge. reflexivity.
Qed.

(** X9.  With [strong_active_warm_start] set, at an index [t > 0] whose
    lambda is at most half the previous one, the strong rule disables no
    feature: the first invocation at [t] receives an all-zero mask. *)
Theorem strong_rule_idle_when_halving
    X y (a : vec) beta_init fi eps mi scr f g R t :
  lasso_path X y (NdArray a) beta_init fi eps mi scr f g true = Ok R ->
  (0 < t)%nat -> (t < length a)%nat ->
  2 * nth t a 0 - nth (t - 1) a 0 <= 0 ->
  exists prev c rest,
    last (calls_at (t - 1) (calls (final R))) = Some prev
    /\ calls_at t (calls (final R)) = c :: rest
    /\ mask_in c = repeat 0%Z (length (XTR (c_after prev))).
Proof.
  intros HR H0 Ht Hthr.
  destruct (lasso_path_Ok _ _ _ _ _ _ _ _ _ _ _ _ HR) as (E & s0 & Hsu).
  destruct (first_call_after E (length a) s0 t
              (su_calls _ _ _ _ _ _ _ _ _ _ _ _ Hsu) H0 Ht)
    as (prev & c & rest & Hlast & _ & Hc & _ & _ & Hmask).
  rewrite (su_strong _ _ _ _ _ _ _ _ _ _ _ _ Hsu),
          (su_lambdas _ _ _ _ _ _ _ _ _ _ _ _ Hsu) in Hmask.
  cbn [grid_of lam_num] in Hmask.
  rewrite (su_final _ _ _ _ _ _ _ _ _ _ _ _ Hsu). cbn [grid_of len].
  exists prev, c, rest.
  split; [exact Hlast|]. split; [exact Hc|].
  rewrite Hmask. apply strong_rule_nonpositive. exact Hthr.
Qed.

(** *** Centred data has zero mean *)

Lemma inject_nat_succ (n : nat) :
  inject_Z (Z.of_nat (S n)) == inject_Z (Z.of_nat n) + 1.
Proof.
  rewrite Nat2Z.inj_succ. unfold Z.succ. rewrite inject_Z_plus. reflexivity.
Qed.

Lemma inject_nat_nonzero (n : nat) :
  (0 < n)%nat -> ~ inject_Z (Z.of_nat n) == 0.
Proof.
  intros Hn H. unfold Qeq in H. simpl in H. lia.
Qed.

Lemma np_sum_map_sub (l : vec) (m : Q) :
  np_sum (map (fun v => v - m) l)
  == np_sum l - inject_Z (Z.of_nat (length l)) * m.
Proof.
  induction l as [|x l IH].
  - cbn. ring.
  - cbn [map length]. rewrite !np_sum_cons, IH, inject_nat_succ. ring.
Qed.

Lemma centred_sum (l : vec) :
  (0 < length l)%nat ->
  np_sum (map (fun v => v - np_sum l / inject_Z (Z.of_nat (length l))) l)
  == 0.
Proof.
  intros Hl. rewrite np_sum_map_sub. field.
  apply inject_nat_nonzero. exact Hl.
Qed.

Lemma nth_zip_with_minus (a b : vec) j :
  (j < length a)%nat -> (j < length b)%nat ->
  nth j (zip_with Qminus a b) 0 = nth j a 0 - nth j b 0.
Proof.
  revert b j. induction a as [|x a IH]; intros [|z b] [|j]; simpl;
    try lia; try reflexivity.
  intros Ha Hb. apply IH; lia.
Qed.

Lemma nth_map_seq {A} (h : nat -> A) p j d :
  (j < p)%nat -> nth j (map h (seq 0 p)) d = h j.
Proof.
  intros Hj. rewrite (nth_indep _ d (h 0%nat))
    by (rewrite length_map, length_seq; exact Hj).
  rewrite (map_nth h (seq 0 p) 0%nat j), seq_nth by exact Hj. reflexivity.
Qed.

(** X10.  With [fit_intercept] set, the target the call leaves behind has
    mean zero, and so has every column of a dense, well-formed [X] with at
    least one sample. *)
Theorem centred_data_zero_mean X y lambdas beta_init eps mi scr f g st R :
  lasso_path X y lambdas beta_init true eps mi scr f g st = Ok R ->
  (y <> [] -> np_mean (y_after R) == 0)
  /\ (issparse X = false -> well_formed X = true ->
      (0 < fst (shape X))%nat ->
      Forall (fun m => m == 0) (col_means (X_after R))).
Proof.
  intros HR.
  destruct (lasso_path_Ok _ _ _ _ _ _ _ _ _ _ _ _ HR) as (E & s0 & Hsu).
  rewrite (su_y_after _ _ _ _ _ _ _ _ _ _ _ _ Hsu),
          (su_X_after _ _ _ _ _ _ _ _ _ _ _ _ Hsu).
  clear HR Hsu. split.
  - intros Hy. unfold np_mean at 1. rewrite length_map.
    unfold np_mean. rewrite centred_sum.
    + unfold Qdiv. ring.
    + destruct y; [contradiction|simpl; lia].
  - intros Hdense Hwf Hn.
    destruct X as [n p rows|]; [|discriminate].
    cbn in Hwf, Hn |- *.
    apply andb_prop in Hwf as [Hrows Hcols].
    apply Nat.eqb_eq in Hrows.
    rewrite forallb_forall in Hcols.
    apply List.Forall_forall. intros m Hm.
    apply in_map_iff in Hm as (j & <- & Hj). apply in_seq in Hj.
    assert (Hcol : column (map (fun row =>
                     zip_with Qminus row
                       (map (fun j0 => np_sum (column rows j0)
                                       / inject_Z (Z.of_nat n)) (seq 0 p)))
                     rows) j
                   = map (fun v => v - np_sum (column rows j)
                                      / inject_Z (Z.of_nat n))
                         (column rows j)).
    { unfold column. rewrite !map_map. apply map_ext_in.
      intros row Hrow. specialize (Hcols row Hrow).
      apply Nat.eqb_eq in Hcols.
      rewrite nth_zip_with_minus.
      - rewrite nth_map_seq by lia. reflexivity.
      - lia.
      - rewrite length_map, length_seq. lia. }
    rewrite Hcol.
    assert (Hlen : length (column rows j) = n).
    { unfold column. rewrite length_map. exact Hrows. }
    rewrite <- Hlen. rewrite centred_sum by lia.
    unfold Qdiv. ring.
Qed.

(** *** The cold start *)

Lemma np_sum_all_zero (l : vec) :
  Forall (fun q => q == 0) l -> np_sum l == 0.
Proof.
  induction 1 as [|x l Hx _ IH]; [reflexivity|].
  rewrite np_sum_cons, Hx, IH. ring.
Qed.

Lemma vdot_zeros (row : vec) p : vdot row (np_zeros p) == 0.
Proof.
  unfold vdot. apply np_sum_all_zero.
  unfold np_zeros. revert p.
  induction row as [|x row IH]; intros [|p]; simpl; constructor.
  - ring.
  - apply IH.
Qed.

Lemma nth_all_zero (l : vec) i :
  Forall (fun q => q == 0) l -> nth i l 0 == 0.
Proof.
  intros Hl. revert i.
  induction Hl as [|x l Hx _ IH]; intros [|i]; simpl;
    try reflexivity; auto.
Qed.

Lemma fold_left_inv {A B} (P : A -> Prop) (h : A -> B -> A) (l : list B) :
  (forall acc x, P acc -> P (h acc x)) ->
  forall acc, P acc -> P (fold_left h l acc).
Proof.
  intros Hh. induction l as [|x l IH]; intros acc Hacc; simpl; auto.
Qed.

Lemma repeat_all_zero n : Forall (fun q => q == 0) (repeat 0 n).
Proof. induction n; simpl; constructor; [reflexivity|assumption]. Qed.

(** With all coefficients at zero, [X.dot(beta)] is the zero vector. *)
Lemma mat_dot_zeros X v :
  mat_dot X (np_zeros (snd (shape X))) = Ok v ->
  Forall (fun q => q == 0) v.
Proof.
  destruct X as [n p rows|n p d i ip]; simpl;
    destruct (Nat.eqb _ _); try discriminate; intros H; injection H as <-.
  - induction rows as [|row rows IH]; simpl; constructor.
    + apply vdot_zeros.
    + exact IH.
  - apply fold_left_inv; [|apply repeat_all_zero].
    intros acc j Hacc. apply fold_left_inv; [|exact Hacc].
    intros acc' e Hacc'. apply Forall_insert; [exact Hacc'|].
    rewrite (nth_all_zero acc' (fst e) Hacc').
    unfold np_zeros. rewrite nth_repeat. ring.
Qed.

Lemma zip_minus_zero (a b : vec) :
  length a = length b -> Forall (fun q => q == 0) b ->
  Forall2 Qeq (zip_with Qminus a b) a.
Proof.
  revert b. induction a as [|x a IH]; intros [|z b] Hlen Hb; simpl in *;
    try discriminate; constructor.
  - inversion Hb as [|? ? Hz _]; subst. rewrite Hz. ring.
  - inversion Hb; subst. apply IH; [lia|assumption].
Qed.

Lemma Forall2_map_same {A B} (R : B -> B -> Prop) (h k : A -> B) l :
  (forall x, R (h x) (k x)) -> Forall2 R (map h l) (map k l).
Proof. intros H. induction l; simpl; constructor; auto. Qed.

Lemma Forall2_map_left (h : Q -> Q) (l l' : vec) :
  (forall v, h v == v) -> Forall2 Qeq l l' -> Forall2 Qeq (map h l) l'.
Proof.
  intros Hh. induction 1 as [|x x' l l' Hx _ IH]; simpl; constructor.
  - rewrite Hh. exact Hx.
  - exact IH.
Qed.

Lemma vdot_proper (c r r' : vec) :
  Forall2 Qeq r r' -> vdot c r == vdot c r'.
Proof.
  unfold vdot. intros Hr. revert c.
  induction Hr as [|x x' r r' Hx _ IH]; intros [|z c]; simpl;
    try reflexivity.
  rewrite !np_sum_cons, Hx, (IH c). reflexivity.
Qed.

Lemma nth_proper (r r' : vec) i :
  Forall2 Qeq r r' -> nth i r 0 == nth i r' 0.
Proof.
  intros Hr. revert i.
  induction Hr as [|x x' r r' Hx _ IH]; intros [|i]; simpl;
    try reflexivity; auto.
Qed.

Lemma np_sum_map_proper {A} (h k : A -> Q) (l : list A) :
  (forall e, h e == k e) -> np_sum (map h l) == np_sum (map k l).
Proof.
  intros H. induction l as [|e l IH]; [reflexivity|].
  cbn [map]. rewrite !np_sum_cons, IH, (H e). reflexivity.
Qed.

(** [X.T.dot] sends equal vectors to equal vectors. *)
Lemma mat_tdot_proper X r r' v :
  Forall2 Qeq r r' -> mat_tdot X r = Ok v ->
  exists v', mat_tdot X r' = Ok v' /\ Forall2 Qeq v v'.
Proof.
  intros Hr. pose proof (Forall2_length _ _ _ Hr) as Hlen.
  destruct X as [n p rows|n p d i ip]; simpl; rewrite <- Hlen;
    destruct (Nat.eqb _ _); try discriminate; intros H; injection H as <-;
    eexists; (split; [reflexivity|]); apply Forall2_map_same; intros j.
  - apply vdot_proper. exact Hr.
  - apply np_sum_map_proper. intros e.
    rewrite (nth_proper r r' (fst e) Hr). reflexivity.
Qed.

(** X11.  Without [beta_init], on a well-formed [X] and a target with one
    entry per sample, the first invocation is the authoritative solve at
    index 0 and it starts cold: all coefficients zero, no feature
    disabled, the residual equal to the (centred) target and the
    correlations equal to [X.T.dot(y)]; for a dense [X] the running
    residual sum it is handed is 0. *)
Theorem cold_start X y lambdas fi eps mi scr f g st R :
  lasso_path X y lambdas None fi eps mi scr f g st = Ok R ->
  well_formed X = true ->
  length y = fst (shape X) ->
  (0 < len (grid_of lambdas))%nat ->
  exists c rest,
    calls (final R) = c :: rest
    /\ is_probe c = false
    /\ c_t c = 0%nat
    /\ beta (c_before c) = np_zeros (snd (shape X))
    /\ mask_in c = repeat 0%Z (snd (shape X))
    /\ Forall2 Qeq (residual (c_before c)) (y_after R)
    /\ (exists xty,
          mat_tdot (X_after R) (y_after R) = Ok xty
          /\ Forall2 Qeq (XTR (c_before c)) xty)
    /\ (issparse X = false -> a_sum_residual (c_args c) = 0).
Proof.
  intros HR Hwf Hy Hn.
  destruct (lasso_path_Ok_rest _ _ _ _ _ _ _ _ _ _ _ _ HR)
    as (E & s0 & Hsu & Hsr).
  pose proof (su_calls _ _ _ _ _ _ _ _ _ _ _ _ Hsu) as Hcalls.
  pose proof (sr_beta _ _ _ _ _ _ _ _ _ _ Hsr) as Hbeta.
  pose proof (sr_XTR _ _ _ _ _ _ _ _ _ _ Hsr) as Hxtr.
  destruct (sr_residual _ _ _ _ _ _ _ _ _ _ Hsr)
    as (Xb & r0 & Hdot & Hsub & Hres).
  cbn in Hbeta. rewrite Hbeta in Hdot, Hres.
  assert (Hshape : shape (X_after R) = shape X /\ rows_ok (X_after R)).
  { rewrite (su_X_after _ _ _ _ _ _ _ _ _ _ _ _ Hsu).
    pose proof (well_formed_rows_ok X Hwf) as Hok.
    destruct (fi && negb (issparse X)).
    - split; [apply sub_rows_shape|apply sub_rows_ok; exact Hok].
    - split; [reflexivity|exact Hok]. }
  destruct Hshape as [Hshape Hok].
  assert (Hylen : length (y_after R) = fst (shape X)).
  { rewrite (su_y_after _ _ _ _ _ _ _ _ _ _ _ _ Hsu).
    destruct fi; rewrite ?length_map; exact Hy. }
  assert (Hzero : Forall (fun q => q == 0) Xb).
  { apply (mat_dot_zeros (X_after R)). rewrite Hshape. exact Hdot. }
  assert (Hr0 : Forall2 Qeq r0 (y_after R)).
  { apply mat_dot_length in Hdot; [|exact Hok]. rewrite Hshape in Hdot.
    unfold np_sub in Hsub. rewrite Hylen, Hdot, Nat.eqb_refl in Hsub.
    injection Hsub as <-. apply zip_minus_zero; [lia|exact Hzero]. }
  assert (Hresidual : Forall2 Qeq (residual (arrs s0)) (y_after R)).
  { rewrite Hres. destruct (issparse X && fi); [|exact Hr0].
    apply Forall2_map_left; [|exact Hr0].
    intros v. rewrite vdot_zeros. ring. }
  destruct (mat_tdot_proper _ _ _ _ Hresidual Hxtr) as (xty & Hxty & Hcorr).
  rewrite (su_final _ _ _ _ _ _ _ _ _ _ _ _ Hsu), path_loop_calls, Hcalls.
  destruct (len (grid_of lambdas)) as [|m]; [lia|].
  cbn [seq flat_map app]. rewrite path_loop_0. unfold step_calls.
  rewrite warm_enabled_0. cbn [andb app].
  eexists; eexists. split; [reflexivity|].
  split; [reflexivity|]. split; [reflexivity|].
  unfold mask_in, auth_call.
  rewrite invoke_before, warm_start_arrs, warm_enabled_0.
  split; [exact Hbeta|].
  split; [exact (su_disabled _ _ _ _ _ _ _ _ _ _ _ _ Hsu)|].
  split; [exact Hresidual|].
  split; [exists xty; split; assumption|].
  intros Hdense. cbn.
  rewrite warm_start_sum_residual, warm_enabled_0. cbn [andb].
  rewrite (sr_sum_residual _ _ _ _ _ _ _ _ _ _ Hsr), Hdense. reflexivity.
Qed.

(** *** The script's grid and its call *)

Lemma div_const_lt (m : Q) (a b : positive) :
  0 < m -> (a < b)%positive ->
  0 < m / inject_Z (Zpos b)
  /\ m / inject_Z (Zpos b) < m / inject_Z (Zpos a).
Proof.
  destruct m as [p q]. unfold Qlt, Qdiv, Qmult, Qinv, inject_Z. simpl.
  intros Hm Hab. rewrite !Pos2Z.inj_mul. split; nia.
Qed.

(** X12.  The grid of the script has five entries,
    [lambda_max / 5, ..., lambda_max / 25]; when [lambda_max] is positive
    they are positive and strictly decreasing, and when it is zero they are
    all zero. *)
Theorem test_grid (m : Q) :
  test_lambdas m = [m / 5; m / 10; m / 15; m / 20; m / 25]
  /\ (0 < m ->
      forall i j, (i < j)%nat -> (j < 5)%nat ->
        0 < nth j (test_lambdas m) 0
        /\ nth j (test_lambdas m) 0 < nth i (test_lambdas m) 0)
  /\ (m == 0 -> Forall (fun l => l == 0) (test_lambdas m)).
Proof.
  split; [reflexivity|]. split.
  - intros Hm i j Hij Hj.
    change (test_lambdas m)
      with (map (fun k => m / inject_Z (Zpos k)) [5; 10; 15; 20; 25]%positive).
    destruct j as [|[|[|[|[|j]]]]]; try lia;
      destruct i as [|[|[|[|i]]]]; try lia;
      cbn [map nth]; apply div_const_lt; (exact Hm || reflexivity).
  - intros Hm. cbn. repeat constructor; rewrite Hm; reflexivity.
Qed.

Lemma set_up_defined X y lambdas beta_init fi eps mi scr f g st :
  well_formed X = true ->
  (forall b, beta_init = Some b -> length b = snd (shape X)) ->
  length y = fst (shape X) ->
  exists R, lasso_path X y lambdas beta_init fi eps mi scr f g st = Ok R.
Proof.
  intros Hwf Hb Hy. pose proof (well_formed_rows_ok X Hwf) as Hok.
  unfold lasso_path, bind.
  set (y' := if fi then map (fun v => v - np_mean y) y else y).
  set (X' := if fi && negb (issparse X)
             then sub_rows X (col_means X) else X).
  set (b0 := match beta_init with
             | Some b => b
             | None => np_zeros (snd (shape X))
             end).
  assert (Hy' : length y' = fst (shape X)).
  { unfold y'. destruct fi; rewrite ?length_map; exact Hy. }
  assert (HX' : rows_ok X' /\ shape X' = shape X).
  { unfold X'. destruct (fi && negb (issparse X)).
    - split; [apply sub_rows_ok; exact Hok|apply sub_rows_shape].
    - split; [exact Hok|reflexivity]. }
  destruct HX' as [Hok' Hshape].
  assert (Hb0 : length b0 = snd (shape X)).
  { unfold b0. destruct beta_init as [b|]; [apply Hb; reflexivity|].
    apply repeat_length. }
  destruct (mat_dot_defined X' b0) as [Xb Hdot];
    [rewrite Hshape; exact Hb0|].
  rewrite Hdot.
  apply mat_dot_length in Hdot; [|exact Hok']. rewrite Hshape in Hdot.
  unfold np_sub. rewrite Hy', Hdot, Nat.eqb_refl.
  destruct (mat_tdot_defined X'
              (if issparse X && fi
               then map (fun v => v + mean_dot
                                    (if fi then Some (col_means X) else None)
                                    b0) (zip_with Qminus y' Xb)
               else zip_with Qminus y' Xb)) as [xtr Htdot].
  { rewrite Hshape.
    destruct (issparse X && fi); rewrite ?length_map, length_zip_with; lia. }
  rewrite Htdot. eexists. reflexivity.
Qed.


(** *** The state the first solve starts from *)

Lemma first_call_of_run E n s :
  calls s = [] -> (0 < n)%nat ->
  exists c rest,
    calls (path_loop E n s) = c :: rest
    /\ c_before c = arrs s
    /\ a_sum_residual (c_args c) = sum_residual s.
Proof.
  intros Hs Hn. rewrite path_loop_calls, Hs.
  destruct n as [|m]; [lia|].
  cbn [seq flat_map app]. rewrite path_loop_0. unfold step_calls.
  rewrite warm_enabled_0. cbn [andb app].
  eexists; eexists. split; [reflexivity|].
  unfold auth_call. rewrite invoke_before, warm_start_arrs, warm_enabled_0.
  split; [reflexivity|]. cbn.
  rewrite warm_start_sum_residual, warm_enabled_0. reflexivity.
Qed.

(** X14.  The first invocation of a run starts from the given
    [beta_init] (zeros without one) with a residual and a correlation
    vector computed from it: the residual is [y - X.dot(beta)] on the
    centred data, shifted by [mean(X).dot(beta)] for a sparse centred [X],
    and the correlations are [X.T.dot(residual)]. *)
Theorem initial_state_consistent
    X y lambdas beta_init fi eps mi scr f g st R :
  lasso_path X y lambdas beta_init fi eps mi scr f g st = Ok R ->
  (0 < len (grid_of lambdas))%nat ->
  exists c rest Xb r0,
    calls (final R) = c :: rest
    /\ beta (c_before c)
       = match beta_init with
         | Some b => b
         | None => np_zeros (snd (shape X))
         end
    /\ mat_dot (X_after R) (beta (c_before c)) = Ok Xb
    /\ np_sub (y_after R) Xb = Ok r0
    /\ residual (c_before c)
       = (if issparse X && fi
          then map (fun v => v + vdot (col_means X) (beta (c_before c))) r0
          else r0)
    /\ mat_tdot (X_after R) (residual (c_before c)) = Ok (XTR (c_before c))
    /\ a_sum_residual (c_args c)
       = (if issparse X && fi then np_sum (residual (c_before c)) else 0).
Proof.
  intros HR Hn.
  destruct (lasso_path_Ok_rest _ _ _ _ _ _ _ _ _ _ _ _ HR)
    as (E & s0 & Hsu & Hsr).
  destruct (first_call_of_run E _ s0
              (su_calls _ _ _ _ _ _ _ _ _ _ _ _ Hsu) Hn)
    as (c & rest & Hc & Hbefore & Hsum).
  destruct (sr_residual _ _ _ _ _ _ _ _ _ _ Hsr)
    as (Xb & r0 & Hdot & Hsub & Hres).
  exists c, rest, Xb, r0.
  rewrite (su_final _ _ _ _ _ _ _ _ _ _ _ _ Hsu), Hbefore, Hsum.
  split; [exact Hc|].
  split; [exact (sr_beta _ _ _ _ _ _ _ _ _ _ Hsr)|].
  split; [exact Hdot|]. split; [exact Hsub|]. split; [exact Hres|].
  split; [exact (sr_XTR _ _ _ _ _ _ _ _ _ _ Hsr)|].
  exact (sr_sum_residual _ _ _ _ _ _ _ _ _ _ Hsr).
Qed.

End More.

(** * Concrete runs *)

(** C2, counterexample.  A lambda of [-1], an empty grid and a target
    shorter than the number of samples are all accepted: the first and the
    last reach the kernel, the second returns empty outputs. *)
Lemma invalid_configurations_accepted :
  (exists R, run_negative_lambda = Ok R
             /\ exists c, calls (final R) = [c]
                          /\ a_lambda (c_args c) = VNum (-1))
  /\ (exists R, run_empty_grid = Ok R /\ gaps (final R) = [])
  /\ (exists R, run_short_y = Ok R
                /\ exists c, calls (final R) = [c] /\ a_y (c_args c) = [1]).
Proof.
  split; [|split].
  - eexists. split; [vm_compute; reflexivity|].
    eexists. split; reflexivity.
  - eexists. split; [vm_compute; reflexivity|]. reflexivity.
  - eexists. split; [vm_compute; reflexivity|].
    eexists. split; reflexivity.
Qed.

Lemma no_grid_validation_witness :
  run_long_y = Raise ValueError
  /\ is_Ok run_negative_lambda = is_Ok run_empty_grid.
Proof.
  destruct (no_grid_validation (stub_kernel 0 1 false) stub_column_norm
              X21 [1; 2; 3] (NdArray [1]) None false (1 # 2) 10 GAPSAFE 10
              false true) as [Hraise _].
  destruct (no_grid_validation (stub_kernel 0 1 false) stub_column_norm
              X11 [1] (NdArray []) None false (1 # 2) 10 GAPSAFE 10
              false true) as (_ & Hgrid & _).
  split.
  - apply Hraise; [reflexivity|simpl; lia|simpl; lia].
  - apply (Hgrid (NdArray [-1])).
Defined.

(** C3, counterexample.  The solve at index 0 ends with zero active
    features, and the probe at index 1 runs all the same. *)
Lemma probe_runs_after_zero_active :
  exists R, run_gap_probe = Ok R /\ ~ skip_iff_previous_zero 2 R.
Proof.
  eexists. split; [vm_compute; reflexivity|].
  intros H. destruct (H 1%nat) as [_ Hskip]; [lia|lia|].
  pose proof (Hskip eq_refl) as Hs.
  clear - Hs. unfold probe_skipped in Hs.
  vm_compute in Hs. specialize (Hs _ (or_introl eq_refl)).
  discriminate Hs.
Qed.

Lemma gap_warm_start_probe_runs_witness :
  exists R, run_gap_probe = Ok R
            /\ exists c rest, calls_at 1 (calls (final R)) = c :: rest
                              /\ is_probe c = true.
Proof.
  eexists. split; [vm_compute; reflexivity|].
  apply (gap_warm_start_probe_runs (stub_kernel 0 0 false) stub_column_norm
           X22 [1; 1] (NdArray [1; 1 # 2]) None false (1 # 10) 10
           NO_SCREENING 10 false _ 1%nat 0%Z).
  - vm_compute; reflexivity.
  - lia.
  - simpl; lia.
  - reflexivity.
  - simpl; lia.
Defined.

Lemma strong_warm_start_mask_witness :
  exists R, run_strong = Ok R
            /\ exists c rest, calls_at 1 (calls (final R)) = c :: rest
                              /\ mask_in c = [0%Z; 1%Z].
Proof.
  eexists. split; [vm_compute; reflexivity|].
  match goal with |- context [final ?R0] => set (R := R0) end.
  destruct (strong_warm_start_mask (stub_kernel 0 1 false) stub_column_norm
              X22 [1; 1 # 4] [1; 3 # 4] None false (1 # 10) 10 GAPSAFE 10
              false R 1%nat)
    as (prev & c & rest & _ & _ & Hc & _ & _).
  - vm_compute; reflexivity.
  - lia.
  - simpl; lia.
  - exists c, rest. split; [exact Hc|].
    vm_compute in Hc. injection Hc as <- _. reflexivity.
Defined.

(** C5, counterexample.  With both toggles off, the mask the solve at
    index 1 receives is the mask the solve at index 0 left, neither reset
    nor recomputed. *)
Lemma mask_carried_over :
  exists R, run_carry = Ok R
            /\ ~ mask_fresh_at_each_lambda 1 (Arr1 [1; 1 # 2]) R.
Proof.
  eexists. split; [vm_compute; reflexivity|].
  intros H.
  destruct (H 1%nat _ _ ltac:(simpl; lia) eq_refl)
    as [Hzero|(prev & Hlast & Hmask)].
  - vm_compute in Hzero. discriminate Hzero.
  - vm_compute in Hlast. injection Hlast as <-.
    vm_compute in Hmask. discriminate Hmask.
Qed.

Lemma mask_at_first_call_witness :
  exists R, run_carry = Ok R
            /\ exists c rest, calls_at 1 (calls (final R)) = c :: rest
                              /\ mask_in c = [1%Z].
Proof.
  eexists. split; [vm_compute; reflexivity|].
  match goal with |- context [final ?R0] => set (R := R0) end.
  destruct (mask_at_first_call (stub_kernel 0 1 true) stub_column_norm
              X11 [1] (NdArray [1; 1 # 2]) None false (1 # 10) 10 GAPSAFE 10
              false false R 1%nat)
    as (c & rest & Hc & _ & Hprev).
  - vm_compute; reflexivity.
  - simpl; lia.
  - exists c, rest. split; [exact Hc|].
    destruct (Hprev ltac:(lia)) as (prev & Hlast & Hmask).
    rewrite Hmask. vm_compute in Hlast. injection Hlast as <-. reflexivity.
Defined.

(** C6, counterexample.  A reported gap of [-1] is at most the tolerance
    [1/2], yet the warning is printed. *)
Lemma negative_gap_warned :
  exists R, run_negative_gap = Ok R /\ ~ converged_iff_gap_le_tol (1 # 2) 1 R.
Proof.
  eexists. split; [vm_compute; reflexivity|].
  intros H.
  destruct (H 0%nat (-1) ltac:(lia) eq_refl) as [Hconv _].
  apply Hconv.
  - vm_compute. discriminate.
  - vm_compute. left. reflexivity.
Qed.

Lemma gap_tolerance_witness :
  exists R, run_negative_gap = Ok R
            /\ forall c, In c (calls (final R)) -> a_tol (c_args c) = 1 # 2.
Proof.
  eexists. split; [vm_compute; reflexivity|].
  match goal with |- context [final ?R0] => set (R := R0) end.
  destruct (gap_tolerance (stub_kernel (-1) 1 false) stub_column_norm
              X11 [1] (NdArray [1]) None false (1 # 2) 10 GAPSAFE 10
              false true R) as (_ & Htol & _).
  - vm_compute; reflexivity.
  - intros c Hc. rewrite (Htol c Hc). reflexivity.
Defined.

Lemma non_convergence_warning_witness :
  exists R, run_not_converged = Ok R
            /\ exists pre post,
                 stdout (final R)
                 = pre ++ [DidNotConverge 0; GapEps 1 (1 # 2)] ++ post.
Proof.
  eexists. split; [vm_compute; reflexivity|].
  match goal with |- context [final ?R0] => set (R := R0) end.
  destruct (non_convergence_warning (stub_kernel 1 1 false) stub_column_norm
              X11 [1] (NdArray [1; 1 # 2]) None false (1 # 2) 10 GAPSAFE 10
              false true R 0%nat 1)
    as (Hout & _).
  - vm_compute; reflexivity.
  - simpl; lia.
  - reflexivity.
  - vm_compute; reflexivity.
  - exact Hout.
Defined.

Lemma first_active_count_witness :
  exists R, run_strong = Ok R
            /\ n_active_features (final R) !! 0%nat = Some 0%Z.
Proof.
  eexists. split; [vm_compute; reflexivity|].
  match goal with |- context [final ?R0] => set (R := R0) end.
  destruct (first_active_count (stub_kernel 0 1 false) stub_column_norm
              X22 [1; 1 # 4] (NdArray [1; 3 # 4]) None false (1 # 10) 10
              GAPSAFE 10 false true R)
    as (c & _ & _ & Hforced & _).
  - vm_compute; reflexivity.
  - simpl; lia.
  - apply Hforced. discriminate.
Defined.

(** C9, counterexample.  Without [fit_intercept] the intercept is 0, not
    [mean(y) - mean(X) . beta = 2]. *)
Lemma intercept_zero_without_centering :
  exists R, run_no_intercept = Ok R
            /\ ~ intercept_is_mean_formula X21 [1; 3] 1 R.
Proof.
  eexists. split; [vm_compute; reflexivity|].
  intros H.
  destruct (H 0%nat _ ltac:(lia) eq_refl) as (v & Hv & Heq).
  vm_compute in Hv. injection Hv as <-.
  vm_compute in Heq. discriminate Heq.
Qed.

Lemma centering_and_intercepts_witness :
  exists R, run_centered = Ok R
            /\ y_after R = map (fun v => v - np_mean [1; 3]) [1; 3]
            /\ X_after R = sub_rows X21 (col_means X21).
Proof.
  eexists. split; [vm_compute; reflexivity|].
  match goal with |- context [y_after ?R0] => set (R := R0) end.
  destruct (centering_and_intercepts (stub_kernel 0 1 false)
              stub_column_norm X21 [1; 3] (NdArray [1]) (Some [1]) true
              (1 # 2) 10 GAPSAFE 10 false true R)
    as (Hfit & _ & _).
  - vm_compute; reflexivity.
  - destruct (Hfit eq_refl) as (Hy & HX & _).
    split; [exact Hy|]. apply HX. reflexivity.
Defined.

Lemma non_ndarray_lambdas_single_point_witness :
  exists R, run_list = Ok R
            /\ length (gaps (final R)) = 1%nat
            /\ exists c, calls (final R) = [c]
                         /\ a_lambda (c_args c) = VArr [1; 1 # 2].
Proof.
  eexists. split; [vm_compute; reflexivity|].
  destruct (non_ndarray_lambdas_single_point (stub_kernel 0 1 false)
              stub_column_norm X11 [1] (PyList [1; 1 # 2]) None false
              (1 # 2) 10 GAPSAFE 10 false true eq_refl)
    as (_ & _ & HR).
  destruct (HR _ ltac:(vm_compute; reflexivity))
    as (_ & _ & Hg & _ & _ & c & Hc & _ & _ & Hl).
  split; [exact Hg|].
  exists c. split; [exact Hc|]. apply Hl. reflexivity.
Defined.

(** ** Runs for the further facts *)

Lemma probe_schedule_witness :
  exists R, run_strong = Ok R
            /\ exists a p, calls_at 1 (calls (final R)) = [p; a]
                           /\ is_probe p = true.
Proof.
  eexists. split; [vm_compute; reflexivity|].
  match goal with |- context [final ?R0] => set (R := R0) end.
  destruct (probe_schedule (stub_kernel 0 1 false) stub_column_norm
              X22 [1; 1 # 4] (NdArray [1; 3 # 4]) None false (1 # 10) 10
              GAPSAFE 10 false true R 1%nat)
    as (a & _ & _ & Hon).
  - vm_compute; reflexivity.
  - simpl; lia.
  - destruct (Hon ltac:(lia) eq_refl) as (p & Hp & Hprobe & _).
    exists a, p. split; assumption.
Defined.

Lemma state_threaded_witness :
  exists R, run_strong = Ok R /\ threaded true (calls (final R)).
Proof.
  eexists. split; [vm_compute; reflexivity|].
  match goal with |- context [final ?R0] => set (R := R0) end.
  apply (state_threaded (stub_kernel 0 1 false) stub_column_norm
           X22 [1; 1 # 4] (NdArray [1; 3 # 4]) None false (1 # 10) 10
           GAPSAFE 10 false true R).
  vm_compute; reflexivity.
Defined.

Lemma arguments_forwarded_witness :
  exists R c, run_strong = Ok R
              /\ head (calls (final R)) = Some c
              /\ a_max_iter (c_args c) = 10%Z
              /\ a_lambda (c_args c) = VNum 1.
Proof.
  eexists. eexists. split; [vm_compute; reflexivity|].
  split; [vm_compute; reflexivity|].
  match goal with |- context [a_max_iter (c_args ?c0)] => set (c := c0) end.
  edestruct (arguments_forwarded (stub_kernel 0 1 false) stub_column_norm
               X22 [1; 1 # 4] (NdArray [1; 3 # 4]) None false (1 # 10) 10
               GAPSAFE 10 false true) with (c := c)
    as (_ & Hlam & Hmi & _).
  - vm_compute; reflexivity.
  - vm_compute. left. reflexivity.
  - split; [exact Hmi|]. rewrite Hlam. reflexivity.
Defined.

Lemma diagnostics_from_authoritative_witness :
  exists R, run_strong = Ok R
            /\ n_active_features (final R) !! 1%nat = Some 1%Z.
Proof.
  eexists. split; [vm_compute; reflexivity|].
  match goal with |- context [final ?R0] => set (R := R0) end.
  destruct (diagnostics_from_authoritative (stub_kernel 0 1 false)
              stub_column_norm X22 [1; 1 # 4] (NdArray [1; 3 # 4]) None
              false (1 # 10) 10 GAPSAFE 10 false true R 1%nat)
    as (c & _ & _ & _ & Hact).
  - vm_compute; reflexivity.
  - simpl; lia.
  - reflexivity.
Defined.

Lemma printed_lines_witness :
  exists R, run_not_converged = Ok R
            /\ stdout (final R)
               = lines_of_gaps (1 # 2) (1 # 2) 2 (gaps (final R)).
Proof.
  eexists. split; [vm_compute; reflexivity|].
  match goal with |- context [final ?R0] => set (R := R0) end.
  rewrite (printed_lines (stub_kernel 1 1 false) stub_column_norm
             X11 [1] (NdArray [1; 1 # 2]) None false (1 # 2) 10 GAPSAFE 10
             false true R); [|vm_compute; reflexivity].
  reflexivity.
Defined.

Lemma set_up_succeeds_iff_witness : is_Ok run_no_intercept = true.
Proof.
  apply (set_up_succeeds_iff (stub_kernel 0 1 false) stub_column_norm
           X21 [1; 3] (NdArray [1]) None false (1 # 2) 10 GAPSAFE 10
           false true eq_refl).
  split; [discriminate|left; reflexivity].
Defined.

Lemma zero_gap_never_warned_witness :
  exists R, run_strong = Ok R
            /\ ~ In (DidNotConverge 0) (stdout (final R)).
Proof.
  eexists. split; [vm_compute; reflexivity|].
  match goal with |- context [final ?R0] => set (R := R0) end.
  destruct (zero_gap_never_warned (stub_kernel 0 1 false) stub_column_norm
              X22 [1; 1 # 4] (NdArray [1; 3 # 4]) None false (1 # 10) 10
              GAPSAFE 10 false true R) as (_ & Hquiet).
  - vm_compute; reflexivity.
  - vm_compute; discriminate.
  - apply (Hquiet 0%nat 0); reflexivity.
Defined.

Lemma negative_eps_always_warns_witness :
  exists R, run_negative_eps = Ok R
            /\ In (DidNotConverge 1) (stdout (final R)).
Proof.
  eexists. split; [vm_compute; reflexivity|].
  match goal with |- context [final ?R0] => set (R := R0) end.
  apply (negative_eps_always_warns (stub_kernel 0 1 false)
           stub_column_norm X11 [1] (NdArray [1; 1 # 2]) None false
           (-1 # 2) 10 GAPSAFE 10 false true R 1%nat).
  - vm_compute; reflexivity.
  - vm_compute; reflexivity.
  - vm_compute; reflexivity.
  - simpl; lia.
Defined.

Lemma strong_rule_idle_when_halving_witness :
  exists R, run_not_converged = Ok R
            /\ exists c rest, calls_at 1 (calls (final R)) = c :: rest
                              /\ mask_in c = [0%Z].
Proof.
  eexists. split; [vm_compute; reflexivity|].
  match goal with |- context [final ?R0] => set (R := R0) end.
  destruct (strong_rule_idle_when_halving (stub_kernel 1 1 false)
              stub_column_norm X11 [1] [1; 1 # 2] None false (1 # 2) 10
              GAPSAFE 10 false R 1%nat)
    as (prev & c & rest & Hlast & Hc & Hmask).
  - vm_compute; reflexivity.
  - lia.
  - simpl; lia.
  - vm_compute; discriminate.
  - exists c, rest. split; [exact Hc|].
    rewrite Hmask. vm_compute in Hlast. injection Hlast as <-. reflexivity.
Defined.

Lemma centred_data_zero_mean_witness :
  exists R, run_centered = Ok R
            /\ np_mean (y_after R) == 0
            /\ Forall (fun m => m == 0) (col_means (X_after R)).
Proof.
  eexists. split; [vm_compute; reflexivity|].
  match goal with |- context [y_after ?R0] => set (R := R0) end.
  destruct (centred_data_zero_mean (stub_kernel 0 1 false)
              stub_column_norm X21 [1; 3] (NdArray [1]) (Some [1])
              (1 # 2) 10 GAPSAFE 10 false true R) as (Hy & HX).
  - vm_compute; reflexivity.
  - split; [apply Hy; discriminate|].
    apply HX; [reflexivity|reflexivity|simpl; lia].
Defined.

Lemma cold_start_witness :
  exists R, run_strong = Ok R
            /\ exists c rest,
                 calls (final R) = c :: rest
                 /\ beta (c_before c) = [0; 0]
                 /\ Forall2 Qeq (residual (c_before c)) [1; 1 # 4].
Proof.
  eexists. split; [vm_compute; reflexivity|].
  match goal with |- context [final ?R0] => set (R := R0) end.
  destruct (cold_start (stub_kernel 0 1 false) stub_column_norm
              X22 [1; 1 # 4] (NdArray [1; 3 # 4]) false (1 # 10) 10
              GAPSAFE 10 false true R)
    as (c & rest & Hc & _ & _ & Hbeta & _ & Hres & _).
  - vm_compute; reflexivity.
  - reflexivity.
  - reflexivity.
  - simpl; lia.
  - exists c, rest.
    split; [exact Hc|]. split; [exact Hbeta|exact Hres].
Defined.

Lemma test_grid_witness :
  0 < nth 1 (test_lambdas 1) 0
  /\ nth 1 (test_lambdas 1) 0 < nth 0 (test_lambdas 1) 0.
Proof.
  destruct (test_grid 1) as (_ & Hdec & _).
  apply Hdec; [reflexivity|lia|lia].
Defined.


Lemma initial_state_consistent_witness :
  exists R, run_centered = Ok R
            /\ exists c rest,
                 calls (final R) = c :: rest
                 /\ beta (c_before c) = [1]
                 /\ mat_tdot (X_after R) (residual (c_before c))
                    = Ok (XTR (c_before c)).
Proof.
  eexists. split; [vm_compute; reflexivity|].
  match goal with |- context [final ?R0] => set (R := R0) end.
  destruct (initial_state_consistent (stub_kernel 0 1 false)
              stub_column_norm X21 [1; 3] (NdArray [1]) (Some [1]) true
              (1 # 2) 10 GAPSAFE 10 false true R)
    as (c & rest & Xb & r0 & Hc & Hbeta & _ & _ & _ & Hxtr & _).
  - vm_compute; reflexivity.
  - simpl; lia.
  - exists c, rest.
    split; [exact Hc|]. split; [exact Hbeta|exact Hxtr].
Defined.
